(** * Merkle tree visualizer: a shallow embedding of
    [src/merkle_tree_visualizer.py] and the properties of its tree builder.

    Layout of the development:
    - [PyStr]: Python [str] values as code point sequences, the string
      methods the script calls, and the UTF-8 encoder behind [str.encode];
    - [Sha256]: [hashlib.sha256] after FIPS 180-4, with [hexdigest];
    - [Py]: the object store (Python lists are mutable, shared objects), the
      state-and-exception monad the script runs in, and the list primitives;
    - [Merkle]: [hash_pair], [build_merkle_tree], [print_merkle_tree], [main];
    - the other scripts of the repository: [Syllables] (the syllable
      estimator and the word bank), [Signer] ([crypto_haiku_signer.py]),
      [Eff] with [Generator] ([crypto_haiku_generator.py]) and [Sampler]
      (the sampler and the lines of [advanced_crypto_haiku_generator.py]),
      where the random generators are parameters;
    - the definitions the statements need: digests, the layers as a
      function of the leaves, the layers of a tree object read from the store;
    - the lemmas that run the primitives and the loops, the link between the
      program and the functional description, and the theorems. *)

From Stdlib Require Import NArith ZArith Lia ZifyNat.
From stdpp Require Import base list strings gmap.

Local Open Scope N_scope.

(** ** Python strings *)

Module PyStr.

(** A Python [str] is an immutable sequence of Unicode code points. *)
Definition str := list N.

(** ASCII literals of the source, as code point sequences. *)
Definition py (s : string) : str :=
  (fun a => Ascii.N_of_ascii a) <$> String.list_ascii_of_string s.

(** Code points above U+10FFFF do not exist; U+D800..U+DFFF are the
    surrogates, which a [str] may hold but UTF-8 cannot encode. *)
Definition encodable_char (c : N) : bool :=
  (c <? 0xD800) || ((0xE000 <=? c) && (c <? 0x110000)).

Definition encodable (s : str) : Prop := Forall (fun c => encodable_char c = true) s.

(** One code point in UTF-8 (meaningful on encodable code points). *)
Definition utf8_char (c : N) : list N :=
  if c <? 0x80 then [c]
  else if c <? 0x800 then [0xC0 + c / 64; 0x80 + c mod 64]
  else if c <? 0x10000 then
    [0xE0 + c / 4096; 0x80 + (c / 64) mod 64; 0x80 + c mod 64]
  else
    [0xF0 + c / 262144; 0x80 + (c / 4096) mod 64;
     0x80 + (c / 64) mod 64; 0x80 + c mod 64].

Definition utf8 (s : str) : list N := s ≫= utf8_char.

(** [str.isspace] on one code point: the code points CPython's
    [_PyUnicode_IsWhitespace] accepts. *)
Definition isspace (c : N) : bool :=
  ((0x09 <=? c) && (c <=? 0x0D)) || ((0x1C <=? c) && (c <=? 0x20))
  || (c =? 0x85) || (c =? 0xA0) || (c =? 0x1680)
  || ((0x2000 <=? c) && (c <=? 0x200A))
  || (c =? 0x2028) || (c =? 0x2029) || (c =? 0x202F) || (c =? 0x205F)
  || (c =? 0x3000).

Fixpoint lstrip (s : str) : str :=
  match s with
  | [] => []
  | c :: r => if isspace c then lstrip r else s
  end.

Definition rstrip (s : str) : str := reverse (lstrip (reverse s)).

(** [s.strip()] *)
Definition strip (s : str) : str := rstrip (lstrip s).

(** [s.split(sep)] for a one-character separator: never an empty list. *)
Fixpoint split (sep : N) (s : str) : list str :=
  match s with
  | [] => [[]]
  | c :: r =>
      if c =? sep then [] :: split sep r
      else match split sep r with
           | tok :: toks => (c :: tok) :: toks
           | [] => [[c]]
           end
  end.

(** [sep.join(parts)] *)
Fixpoint join (sep : str) (parts : list str) : str :=
  match parts with
  | [] => []
  | [p] => p
  | p :: ps => p ++ sep ++ join sep ps
  end.

(** [s * n] for a string [s] *)
Fixpoint repeat_str (s : str) (n : nat) : str :=
  match n with
  | O => []
  | S n => s ++ repeat_str s n
  end.

End PyStr.

(** ** SHA-256 (FIPS 180-4), the function behind [hashlib.sha256] *)

Module Sha256.

Definition mask32 : N := 0xFFFFFFFF.
Definition add32 (x y : N) : N := (x + y) mod 2 ^ 32.
Definition rotr (n x : N) : N :=
  N.lor (N.shiftr x n) (N.land (N.shiftl x (32 - n)) mask32).
Definition not32 (x : N) : N := N.lxor x mask32.

Definition ch (x y z : N) : N := N.lxor (N.land x y) (N.land (not32 x) z).
Definition maj (x y z : N) : N :=
  N.lxor (N.lxor (N.land x y) (N.land x z)) (N.land y z).
Definition bsig0 (x : N) : N := N.lxor (N.lxor (rotr 2 x) (rotr 13 x)) (rotr 22 x).
Definition bsig1 (x : N) : N := N.lxor (N.lxor (rotr 6 x) (rotr 11 x)) (rotr 25 x).
Definition ssig0 (x : N) : N := N.lxor (N.lxor (rotr 7 x) (rotr 18 x)) (N.shiftr x 3).
Definition ssig1 (x : N) : N := N.lxor (N.lxor (rotr 17 x) (rotr 19 x)) (N.shiftr x 10).

(** A 32-bit constant from its two 16-bit halves. *)
Definition w32 (hi lo : N) : N := hi * 65536 + lo.

(** The constants K of FIPS 180-4, section 4.2.2. *)
Definition round_constants : list N :=
  [
   w32 0x428a 0x2f98; w32 0x7137 0x4491; w32 0xb5c0 0xfbcf; w32 0xe9b5 0xdba5;
   w32 0x3956 0xc25b; w32 0x59f1 0x11f1; w32 0x923f 0x82a4; w32 0xab1c 0x5ed5;
   w32 0xd807 0xaa98; w32 0x1283 0x5b01; w32 0x2431 0x85be; w32 0x550c 0x7dc3;
   w32 0x72be 0x5d74; w32 0x80de 0xb1fe; w32 0x9bdc 0x06a7; w32 0xc19b 0xf174;
   w32 0xe49b 0x69c1; w32 0xefbe 0x4786; w32 0x0fc1 0x9dc6; w32 0x240c 0xa1cc;
   w32 0x2de9 0x2c6f; w32 0x4a74 0x84aa; w32 0x5cb0 0xa9dc; w32 0x76f9 0x88da;
   w32 0x983e 0x5152; w32 0xa831 0xc66d; w32 0xb003 0x27c8; w32 0xbf59 0x7fc7;
   w32 0xc6e0 0x0bf3; w32 0xd5a7 0x9147; w32 0x06ca 0x6351; w32 0x1429 0x2967;
   w32 0x27b7 0x0a85; w32 0x2e1b 0x2138; w32 0x4d2c 0x6dfc; w32 0x5338 0x0d13;
   w32 0x650a 0x7354; w32 0x766a 0x0abb; w32 0x81c2 0xc92e; w32 0x9272 0x2c85;
   w32 0xa2bf 0xe8a1; w32 0xa81a 0x664b; w32 0xc24b 0x8b70; w32 0xc76c 0x51a3;
   w32 0xd192 0xe819; w32 0xd699 0x0624; w32 0xf40e 0x3585; w32 0x106a 0xa070;
   w32 0x19a4 0xc116; w32 0x1e37 0x6c08; w32 0x2748 0x774c; w32 0x34b0 0xbcb5;
   w32 0x391c 0x0cb3; w32 0x4ed8 0xaa4a; w32 0x5b9c 0xca4f; w32 0x682e 0x6ff3;
   w32 0x748f 0x82ee; w32 0x78a5 0x636f; w32 0x84c8 0x7814; w32 0x8cc7 0x0208;
   w32 0x90be 0xfffa; w32 0xa450 0x6ceb; w32 0xbef9 0xa3f7; w32 0xc671 0x78f2
  ].

(** The eight working words. *)
Record regs := Regs { ra : N; rb : N; rc : N; rd : N; re : N; rf : N; rg : N; rh : N }.

(** The initial hash value of FIPS 180-4, section 5.3.3. *)
Definition initial_hash : regs :=
  Regs (w32 0x6a09 0xe667)
       (w32 0xbb67 0xae85)
       (w32 0x3c6e 0xf372)
       (w32 0xa54f 0xf53a)
       (w32 0x510e 0x527f)
       (w32 0x9b05 0x688c)
       (w32 0x1f83 0xd9ab)
       (w32 0x5be0 0xcd19).

(** Padding: the bit 1, zero bits up to 56 bytes modulo 64, then the
    message length in bits as a big-endian 64-bit integer. *)
Definition be_bytes (n : nat) (x : N) : list N :=
  (fun i => (x / 256 ^ N.of_nat i) mod 256) <$> reverse (seq 0 n).

Definition pad (msg : list N) : list N :=
  let len := length msg in
  msg ++ [0x80] ++ replicate ((64 - (len + 9) mod 64) mod 64)%nat 0
      ++ be_bytes 8 ((8 * N.of_nat len) mod 2 ^ 64).

Fixpoint be_words (bs : list N) : list N :=
  match bs with
  | b0 :: b1 :: b2 :: b3 :: r =>
      (((b0 * 256 + b1) * 256 + b2) * 256 + b3) :: be_words r
  | _ => []
  end.

Fixpoint blocks (n : nat) (ws : list N) : list (list N) :=
  match n with
  | O => []
  | S n => take 16 ws :: blocks n (drop 16 ws)
  end.

(** Message schedule: [n] more words after the ones in [ws]. *)
Fixpoint schedule (n : nat) (ws : list N) : list N :=
  match n with
  | O => ws
  | S n =>
      let t := length ws in
      let wt := add32 (add32 (add32 (ssig1 (nth (t - 2) ws 0)) (nth (t - 7) ws 0))
                             (ssig0 (nth (t - 15) ws 0)))
                      (nth (t - 16) ws 0) in
      schedule n (ws ++ [wt])
  end.

Definition round (r : regs) (kw : N * N) : regs :=
  let t1 := add32 (add32 (add32 (add32 (rh r) (bsig1 (re r))) (ch (re r) (rf r) (rg r)))
                         kw.1) kw.2 in
  let t2 := add32 (bsig0 (ra r)) (maj (ra r) (rb r) (rc r)) in
  Regs (add32 t1 t2) (ra r) (rb r) (rc r) (add32 (rd r) t1) (re r) (rf r) (rg r).

Definition compress (h : regs) (block : list N) : regs :=
  let r := fold_left round (zip round_constants (schedule 48 block)) h in
  Regs (add32 (ra h) (ra r)) (add32 (rb h) (rb r)) (add32 (rc h) (rc r))
       (add32 (rd h) (rd r)) (add32 (re h) (re r)) (add32 (rf h) (rf r))
       (add32 (rg h) (rg r)) (add32 (rh h) (rh r)).

Definition word_bytes (x : N) : list N :=
  [x / 16777216 mod 256; x / 65536 mod 256; x / 256 mod 256; x mod 256].

Definition regs_bytes (r : regs) : list N :=
  word_bytes (ra r) ++ word_bytes (rb r) ++ word_bytes (rc r) ++ word_bytes (rd r)
  ++ word_bytes (re r) ++ word_bytes (rf r) ++ word_bytes (rg r) ++ word_bytes (rh r).

(** [hashlib.sha256(msg).digest()] *)
Definition sha256 (msg : list N) : list N :=
  let ws := be_words (pad msg) in
  regs_bytes (fold_left compress (blocks (length ws / 16) ws) initial_hash).

Definition hex_digit (d : N) : N := if d <? 10 then 48 + d else 87 + d.

(** [.hexdigest()]: two lowercase hexadecimal digits per byte. *)
Definition hexdigest (bs : list N) : PyStr.str :=
  bs ≫= (fun b => [hex_digit (b / 16); hex_digit (b mod 16)]).

(** [hashlib.sha256(msg).hexdigest()] *)
Definition sha256_hex (msg : list N) : PyStr.str := hexdigest (sha256 msg).

End Sha256.

Import PyStr.

(** ** The Python run-time the script needs *)

Module Py.

Inductive exn := IndexError | UnicodeEncodeError.

(** Outcome of a computation: a value, a raised exception, a [while] loop
    that used up its iteration budget, or a reference to no object ([Wrong]:
    Python references are always live, so no run from a well-formed store
    ends there). *)
Inductive result (A : Type) : Type :=
  | Ok (a : A)
  | Raise (e : exn)
  | OutOfFuel
  | Wrong.
Arguments Ok {A} a.
Arguments Raise {A} e.
Arguments OutOfFuel {A}.
Arguments Wrong {A}.

(** A reference is the address of a list object. *)
Abbreviation ref := nat (only parsing).

(** The store: the [list[str]] objects and the [list[list[str]]] objects
    (the two list types of the annotations of the source), each by address,
    and the text written to standard output so far, as code points.
    Allocation appends, so a new object has the next free address.
    Strings are immutable values and live outside the store. *)
Record store := Store {
  strlists : list (list str);
  listlists : list (list ref);
  stdout : str
}.

(** Updates of one component of the store. *)
Definition set_strlists (f : list (list str) → list (list str)) (s : store) : store :=
  Store (f (strlists s)) (listlists s) (stdout s).
Definition set_listlists (f : list (list ref) → list (list ref)) (s : store) : store :=
  Store (strlists s) (f (listlists s)) (stdout s).
Definition set_stdout (f : str → str) (s : store) : store :=
  Store (strlists s) (listlists s) (f (stdout s)).

(** State and exceptions. *)
Definition M (A : Type) : Type := store → result A * store.

Definition ret {A} (a : A) : M A := fun s => (Ok a, s).

Definition bind {A B} (m : M A) (k : A → M B) : M B :=
  fun s =>
    match m s with
    | (Ok a, s') => k a s'
    | (Raise e, s') => (Raise e, s')
    | (OutOfFuel, s') => (OutOfFuel, s')
    | (Wrong, s') => (Wrong, s')
    end.

(** An expression that may raise but does not touch the store. *)
Definition lift {A} (r : result A) : M A := fun s => (r, s).

Notation "x <- m ;; k" := (bind m (fun x => k))
  (at level 100, m at next level, right associativity).
Notation "m ;;; k" := (bind m (fun _ => k))
  (at level 100, right associativity).

(** [xs[i]] for a Python integer index: a negative index counts from the
    end, and an index outside the list raises [IndexError]. *)
Definition index {A} (xs : list A) (i : Z) : result A :=
  let j := if (i <? 0)%Z then (i + Z.of_nat (length xs))%Z else i in
  if (j <? 0)%Z then Raise IndexError
  else match xs !! Z.to_nat j with
       | Some x => Ok x
       | None => Raise IndexError
       end.

(** [range(start, stop, step)] for a positive [step]. *)
Definition range (start stop step : Z) : list Z :=
  (fun k => start + Z.of_nat k * step)%Z
    <$> seq 0 (Z.to_nat ((stop - start + step - 1) / step)).

(** [enumerate(xs)] *)
Definition enumerate {A} (xs : list A) : list (nat * A) := zip (seq 0 (length xs)) xs.

(** *** Objects of type [list[str]] *)

(** The elements of the object [r]. *)
Definition strs_read (r : ref) : M (list str) :=
  fun s => match strlists s !! r with
           | Some xs => (Ok xs, s)
           | None => (Wrong, s)
           end.

(** A list display [[x, ...]]: a new object. *)
Definition strs_new (xs : list str) : M ref :=
  fun s => (Ok (length (strlists s)), set_strlists (.++ [xs]) s).

(** [list(r)] and [r.copy()]: a new object with the same elements. *)
Definition strs_copy (r : ref) : M ref :=
  xs <- strs_read r ;; strs_new xs.

(** [len(r)] *)
Definition strs_len (r : ref) : M nat :=
  xs <- strs_read r ;; ret (length xs).

(** [r[i]] *)
Definition strs_getitem (r : ref) (i : Z) : M str :=
  xs <- strs_read r ;; lift (index xs i).

(** [r.append(v)]: in place. *)
Definition strs_append (r : ref) (v : str) : M unit :=
  xs <- strs_read r ;;
  fun s => (Ok tt, set_strlists (<[r := xs ++ [v]]>) s).

(** *** Objects of type [list[list[str]]] *)

(** The elements of the object [t]. *)
Definition tree_read (t : ref) : M (list ref) :=
  fun s => match listlists s !! t with
           | Some ls => (Ok ls, s)
           | None => (Wrong, s)
           end.

(** A list display [[l, ...]] of lists: a new object holding references. *)
Definition tree_new (ls : list ref) : M ref :=
  fun s => (Ok (length (listlists s)), set_listlists (.++ [ls]) s).

(** [t[i]] *)
Definition tree_getitem (t : ref) (i : Z) : M ref :=
  ls <- tree_read t ;; lift (index ls i).

(** [t.append(l)]: in place; the tree and the caller share the object [l]. *)
Definition tree_append (t : ref) (l : ref) : M unit :=
  ls <- tree_read t ;;
  fun s => (Ok tt, set_listlists (<[t := ls ++ [l]]>) s).

(** *** Output and control *)

(** [print(a, b, ...)]: the arguments separated by one space, then a newline. *)
Definition print (args : list str) : M unit :=
  fun s => (Ok tt, set_stdout (.++ join (py " ") args ++ [10]) s).

(** The prompt of [input(prompt)], written without a newline. *)
Definition prompt (p : str) : M unit :=
  fun s => (Ok tt, set_stdout (.++ p) s).

(** [for x in xs: body] *)
Fixpoint for_ {A} (xs : list A) (body : A → M unit) : M unit :=
  match xs with
  | [] => ret tt
  | x :: r => body x ;;; for_ r body
  end.

(** [while cond: body], with a budget of [fuel] evaluations of [cond]. *)
Fixpoint while_ (fuel : nat) (cond : M bool) (body : M unit) : M unit :=
  match fuel with
  | O => lift OutOfFuel
  | S fuel =>
      c <- cond ;;
      if c : bool then body ;;; while_ fuel cond body else ret tt
  end.

(** [s.encode("utf-8")] *)
Definition encode_utf8 (s : str) : result (list N) :=
  if forallb encodable_char s then Ok (utf8 s) else Raise UnicodeEncodeError.

(** [f(r)] where evaluating [r] may raise. *)
Definition map_ok {A B} (f : A → B) (r : result A) : result B :=
  match r with
  | Ok a => Ok (f a)
  | Raise e => Raise e
  | OutOfFuel => OutOfFuel
  | Wrong => Wrong
  end.

(** [[f(x) for x in xs]], left to right, stopping at the first exception. *)
Fixpoint map_result {A B} (f : A → result B) (xs : list A) : result (list B) :=
  match xs with
  | [] => Ok []
  | x :: r =>
      match f x with
      | Ok y => map_ok (cons y) (map_result f r)
      | Raise e => Raise e
      | OutOfFuel => OutOfFuel
      | Wrong => Wrong
      end
  end.

End Py.

Import Py.

(** ** The script *)

Module Merkle.

(** [hash_pair(a, b)] *)
Definition hash_pair (a b : str) : result str :=
  map_ok Sha256.sha256_hex (encode_utf8 (a ++ b)).

(** [build_merkle_tree(leaves)]; [fuel] bounds the tests of the [while]. *)
Definition build_merkle_tree (fuel : nat) (leaves : ref) : M ref :=
  first <- strs_copy leaves ;;
  tree <- tree_new [first] ;;
  while_ fuel
    (last <- tree_getitem tree (-1) ;;
     n <- strs_len last ;;
     ret (1 <? n)%nat)
    (layer <- strs_new [] ;;
     last <- tree_getitem tree (-1) ;;
     current_layer <- strs_copy last ;;
     n <- strs_len current_layer ;;
     (if (n mod 2 =? 1)%nat then
        x <- strs_getitem current_layer (-1) ;;
        strs_append current_layer x
      else ret tt) ;;;
     n <- strs_len current_layer ;;
     for_ (range 0 (Z.of_nat n) 2) (fun i =>
       a <- strs_getitem current_layer i ;;
       b <- strs_getitem current_layer (i + 1) ;;
       combined <- lift (hash_pair a b) ;;
       strs_append layer combined) ;;;
     tree_append tree layer) ;;;
  ret tree.

(** [print_merkle_tree(tree)]. Neither loop body writes to the list it
    iterates over, so each iteration is over the elements read at its start. *)
Definition print_merkle_tree (tree : ref) : M unit :=
  layers <- tree_read tree ;;
  for_ (enumerate (reverse layers)) (fun '(depth, layer) =>
    let indent := repeat_str (py "    ") depth in
    hs <- strs_read layer ;;
    let shortened := take 8 <$> hs in
    print [indent ++ join (py "   ") shortened]).

(** [tree[-1][0]], the Merkle root. *)
Definition tree_root (tree : ref) : M str :=
  top <- tree_getitem tree (-1) ;;
  strs_getitem top 0.

(** U+2011, the non-breaking hyphen of the banner. *)
Definition nb_hyphen : N := 0x2011.

(** [main()], on the line that [input] returns (without its newline). *)
Definition main (fuel : nat) (line : str) : M unit :=
  print [py "Merkle Tree Visualizer"] ;;;
  print [py "Enter comma" ++ [nb_hyphen]
         ++ py "separated transaction IDs or strings. Each value will be hashed."] ;;;
  prompt (py "Transactions: ") ;;;
  let data := strip line in
  match data with
  | [] => print [py "No data provided. Exiting."]
  | _ =>
      let items := strip <$> filter (fun v => strip v ≠ []) (split 44 data) in
      hashed <- lift (map_result
                        (fun item => map_ok Sha256.sha256_hex (encode_utf8 item))
                        items) ;;
      leaves <- strs_new hashed ;;
      tree <- build_merkle_tree fuel leaves ;;
      print [10 :: py "Merkle Tree (root at top, leaves at bottom):"] ;;;
      print_merkle_tree tree ;;;
      root <- tree_root tree ;;
      print [10 :: py "Merkle Root:"; root]
  end.

End Merkle.

Import Merkle.

(** The store at the start of the script, and a store whose only object,
    at address 0, is the list [ls]. *)
Definition empty_store : store := Store [] [] [].
Definition leaves_store (ls : list str) : store := Store [ls] [] [].

(** ** Definitions used in the statements and proofs *)

(** A lowercase hexadecimal digit, as a code point. *)
Definition is_hex_char (c : N) : bool :=
  ((48 <=? c) && (c <=? 57)) || ((97 <=? c) && (c <=? 102)).

(** A digest: 64 lowercase hexadecimal digits. *)
Definition is_digest (s : str) : Prop :=
  length s = 64%nat ∧ Forall (fun c => is_hex_char c = true) s.

(** The digest that [hash_pair] returns when it returns. *)
Definition combine (a b : str) : str := Sha256.sha256_hex (utf8 a ++ utf8 b).

(** The working copy of a layer: an odd-length layer gets its last element
    once more. *)
Definition pad_odd (c : list str) : list str :=
  match last c with
  | Some x => if (length c mod 2 =? 1)%nat then c ++ [x] else c
  | None => c
  end.

(** Adjacent pairs, left to right. *)
Fixpoint hash_pairs (c : list str) : list str :=
  match c with
  | a :: b :: r => combine a b :: hash_pairs r
  | _ => []
  end.

(** The layer above [c]. *)
Definition next_layer (c : list str) : list str := hash_pairs (pad_odd c).

(** The layers above [c], at most [n] of them. *)
Fixpoint layers_above (n : nat) (c : list str) : list (list str) :=
  match n with
  | O => []
  | S n =>
      if (1 <? length c)%nat
      then next_layer c :: layers_above n (next_layer c)
      else []
  end.

(** All the layers, leaves first. *)
Definition merkle_layers (leaves : list str) : list (list str) :=
  leaves :: layers_above (length leaves) leaves.

(** The layers of the tree object [t], read from the store. *)
Definition tree_at (s : store) (t : ref) : option (list (list str)) :=
  listlists s !! t ≫= mapM (fun l => strlists s !! l).

(** The body of the [for] loop, for the objects [layer] and [current_layer]. *)
Definition pair_step (layer current_layer : ref) (i : Z) : M unit :=
  a <- strs_getitem current_layer i ;;
  b <- strs_getitem current_layer (i + 1) ;;
  combined <- lift (hash_pair a b) ;;
  strs_append layer combined.

(** The test and the body of the [while] loop, for the object [tree]. *)
Definition build_cond (tree : ref) : M bool :=
  last <- tree_getitem tree (-1) ;;
  n <- strs_len last ;;
  ret (1 <? n)%nat.

Definition build_body (tree : ref) : M unit :=
  layer <- strs_new [] ;;
  last <- tree_getitem tree (-1) ;;
  current_layer <- strs_copy last ;;
  n <- strs_len current_layer ;;
  (if (n mod 2 =? 1)%nat then
     x <- strs_getitem current_layer (-1) ;;
     strs_append current_layer x
   else ret tt) ;;;
  n <- strs_len current_layer ;;
  for_ (range 0 (Z.of_nat n) 2) (pair_step layer current_layer) ;;;
  tree_append tree layer.

(** Division and remainder by a constant, for [lia]. *)
Ltac arith := zify; Z.div_mod_to_equations; lia.

(** [s'] extends [s]: every object of [s] is in [s'], unchanged, and nothing
    was printed in between. *)
Definition extends (s s' : store) : Prop :=
  strlists s `prefix_of` strlists s'
  ∧ listlists s `prefix_of` listlists s'
  ∧ stdout s' = stdout s.

(** The value of [tree[-1][0]] in terms of the layers of [tree]. *)
Definition root_of (layers : list (list str)) : result str :=
  match last layers with
  | Some (root :: _) => Ok root
  | _ => Raise IndexError
  end.

(** One printed line: the indentation for [depth], then the first eight
    characters of every hash of the layer, three spaces between them. *)
Definition render_line (depth : nat) (hs : list str) : str :=
  repeat_str (py "    ") depth ++ join (py "   ") (take 8 <$> hs).

(** The lines for the layers [rlayers], root first, from depth [k] on. *)
Fixpoint render_from (k : nat) (rlayers : list (list str)) : list str :=
  match rlayers with
  | [] => []
  | hs :: r => render_line k hs :: render_from (S k) r
  end.

(** The text of a sequence of printed lines. *)
Definition lines_text (lines : list str) : str := lines ≫= (fun l => l ++ [10]).

(** The body of the loop of [print_merkle_tree]. *)
Definition print_step (item : nat * ref) : M unit :=
  let '(depth, layer) := item in
  let indent := repeat_str (py "    ") depth in
  hs <- strs_read layer ;;
  let shortened := take 8 <$> hs in
  print [indent ++ join (py "   ") shortened].

(** What [main] writes before it looks at the input line. *)
Definition banner : str :=
  lines_text
    [py "Merkle Tree Visualizer";
     py "Enter comma" ++ [nb_hyphen]
       ++ py "separated transaction IDs or strings. Each value will be hashed."]
  ++ py "Transactions: ".

(** The leaves [main] derives from the line ["tx1, tx2, tx3"], and a fourth. *)
Definition tx1 : str := Sha256.sha256_hex (utf8 (py "tx1")).
Definition tx2 : str := Sha256.sha256_hex (utf8 (py "tx2")).
Definition tx3 : str := Sha256.sha256_hex (utf8 (py "tx3")).
Definition tx4 : str := Sha256.sha256_hex (utf8 (py "tx4")).
Definition tx_leaves : list str := [tx1; tx2; tx3].

(** [s.lstrip(chars)] and [s.strip(chars)]: [p] tells the characters to
    remove. With [isspace] for [p] these are [lstrip] and [strip]. *)
Fixpoint lstrip_by (p : N → bool) (s : str) : str :=
  match s with
  | [] => []
  | c :: r => if p c then lstrip_by p r else s
  end.

Definition strip_by (p : N → bool) (s : str) : str :=
  reverse (lstrip_by p (reverse (lstrip_by p s))).

(** The items [main] hashes: the tokens of the stripped line that are not
    empty once stripped, stripped; and the leaves, their digests. *)
Definition main_items (line : str) : list str :=
  strip <$> filter (fun v => strip v ≠ []) (split 44 (strip line)).

Definition main_leaves (line : str) : list str :=
  (fun item => Sha256.sha256_hex (utf8 item)) <$> main_items line.

(** ** [advanced_crypto_haiku_generator.py]: the syllable estimator and the
    word bank *)

Module Syllables.

(** [str.lower] on ASCII text, the only text the script passes (the word
    bank is ASCII): the letters A to Z become a to z. *)
Definition lower_char (c : N) : N := if (65 <=? c) && (c <=? 90) then c + 32 else c.
Definition lower_ascii (s : str) : str := lower_char <$> s.

(** [ch in chars] for a string or a set of characters. *)
Definition in_chars (chars : str) (ch : N) : bool := existsb (N.eqb ch) chars.

(** [VOWELS = set("aeiouy")] *)
Definition VOWELS : str := py "aeiouy".

(** The argument of [strip] in [estimate_syllables]: the characters
    [,.!?:;] then the double quote, then ['()[]{}]. *)
Definition punctuation : str := py ",.!?:;" ++ [34] ++ py "'()[]{}".

(** One turn of the loop over the characters: [count] and [prev_vowel]. *)
Definition vowel_step (st : nat * bool) (ch : N) : nat * bool :=
  let '(count, prev_vowel) := st in
  let is_vowel := in_chars VOWELS ch in
  (if is_vowel && negb prev_vowel then S count else count, is_vowel).

(** [w.endswith("e")] *)
Definition endswith_e (w : str) : bool :=
  match last w with
  | Some c => c =? 101
  | None => false
  end.

(** [estimate_syllables(word)] *)
Definition estimate_syllables (word : str) : nat :=
  let w := strip_by (in_chars punctuation) (lower_ascii word) in
  match w with
  | [] => 0%nat
  | _ =>
      let count := (fold_left vowel_step w (0%nat, false)).1 in
      let count := if endswith_e w && (1 <? count)%nat then (count - 1)%nat else count in
      Nat.max count 1
  end.

(** The four lists of [WORD_BANK]. *)
Definition bank_nouns : list str :=
  [
    py "entropy"; py "cipher"; py "hash"; py "nonce"; py "seed"; py "salt";
    py "oracle"; py "channel"; py "curve"; py "ledger"; py "packet";
    py "secret"; py "keystore"; py "torus"; py "ring"; py "module";
    py "keyspace"; py "ciphertext"; py "plaintext"; py "proof"; py "merkle";
    py "noncechain"; py "beacon"; py "snow"; py "shadow"
  ].

Definition bank_verbs : list str :=
  [
    py "drifts"; py "whispers"; py "flows"; py "splits"; py "folds";
    py "binds"; py "jiggles"; py "blooms"; py "scatters"; py "mutates";
    py "settles"; py "forges"; py "etches"; py "melts"; py "glows";
    py "shuffles"; py "masks"; py "seeds"
  ].

Definition bank_adjs : list str :=
  [
    py "random"; py "silent"; py "finite"; py "prime"; py "latent";
    py "fragile"; py "bound"; py "masked"; py "noisy"; py "soft";
    py "sacred"; py "atomic"; py "secret"; py "curved"; py "sparse";
    py "hidden"; py "secure"; py "gentle"
  ].

Definition bank_extras : list str :=
  [
    py "under moon"; py "by lamplight"; py "in cold air"; py "at dawn";
    py "near sea"; py "in snow"; py "by the fire"; py "beyond walls";
    py "between ticks"; py "on the wire"; py "over the ridge"
  ].

(** [WORD_BANK] *)
Definition WORD_BANK : gmap (list N) (list str) :=
  list_to_map [(py "nouns", bank_nouns); (py "verbs", bank_verbs);
               (py "adjs", bank_adjs); (py "extras", bank_extras)].

(** The list [short_pool] of [fit_line]: the adjectives, nouns and verbs
    whose estimate is at most [target_syllables - total]. [None] stands for
    the [KeyError] of a missing key. *)
Definition short_pool (target_syllables total : Z) : option (list str) :=
  pools ← mapM (fun cat => WORD_BANK !! cat) [py "adjs"; py "nouns"; py "verbs"];
  Some (filter (fun x => (Z.of_nat (estimate_syllables x) ≤ target_syllables - total)%Z)
               (concat pools)).

End Syllables.

Import Syllables.

(** ASCII text. *)
Definition ascii_text (s : str) : Prop := Forall (fun c => c < 128) s.

(** The number of vowel groups of [w], as the loop of [estimate_syllables]
    counts them. *)
Definition vowel_groups (w : str) : nat := (fold_left vowel_step w (0%nat, false)).1.

(** ** [crypto_haiku_signer.py] *)

(** [random.choice(xs)], where [k] is the index the generator draws:
    [IndexError] on an empty sequence. *)
Definition random_choice {A} (k : nat) (xs : list A) : result A :=
  match xs with
  | [] => Raise IndexError
  | _ => index xs (Z.of_nat k)
  end.

Module Signer.

(** [haiku_templates]: three haiku of three lines, in Russian, as code
    points (Cyrillic letters, spaces, commas, full stops, en dashes
    U+2013, a hyphen and an ellipsis U+2026). *)
Definition haiku_templates : list (list str) :=
  [
   [
    [
     1042; 1077; 1090; 1074; 1080; 32; 8211; 32; 1082; 1086; 1076; 32;
     1074; 32; 1090; 1077; 1085; 1080; 44
    ];
    [
     1041; 1080; 1090; 32; 1079; 1072; 32; 1073; 1080; 1090; 1086; 1084;
     32; 8211; 32; 1086; 1089; 1077; 1085; 1100; 44
    ];
    [
     1064; 1080; 1092; 1088; 1091; 1077; 1090; 32; 1089; 1091; 1076;
     1100; 1073; 1091; 46
    ]
   ];
   [
    [
     1055; 1086; 1076; 32; 1079; 1074; 1105; 1079; 1076; 1072; 1084;
     1080; 32; 8211; 32; 1082; 1083; 1102; 1095; 44
    ];
    [
     1055; 1086; 32; 1074; 1077; 1090; 1088; 1091; 32; 1082; 1088; 1080;
     1087; 1090; 1086; 45; 1089; 1082; 1072; 1079; 44
    ];
    [
     1058; 1072; 1081; 1085; 1072; 32; 1073; 1083; 1086; 1082; 1095;
     1077; 1081; 1085; 1072; 46
    ]
   ];
   [
    [
     1053; 1086; 1095; 1100; 32; 1080; 32; 1094; 1080; 1092; 1088; 1072;
     44; 32; 1096; 1091; 1084; 8230
    ];
    [
     1057; 1077; 1082; 1088; 1077; 1090; 1099; 32; 1090; 1080; 1093;
     1080; 1093; 32; 1089; 1090; 1088; 1086; 1082
    ];
    [
     1042; 1086; 1089; 1093; 1086; 1076; 32; 1072; 1083; 1075; 1086;
     1088; 1080; 1090; 1084; 1072; 46
    ]
   ]
  ].

(** [generate_haiku()] *)
Definition generate_haiku (k : nat) : result str :=
  map_ok (join [10]) (random_choice k haiku_templates).

(** [sign_haiku(haiku)] *)
Definition sign_haiku (haiku : str) : result str :=
  map_ok Sha256.sha256_hex (encode_utf8 haiku).


End Signer.

(** ** A state monad with exceptions, for the scripts with a random
    generator or an input stream *)

Module Eff.

(** A value, an exception, or a loop that used up its budget. *)
Inductive outcome (E A : Type) : Type :=
  | Done (a : A)
  | Fail (e : E)
  | Diverge.
Arguments Done {E A} a.
Arguments Fail {E A} e.
Arguments Diverge {E A}.

Definition St (S E A : Type) : Type := S → outcome E A * S.

Definition ret {S E A} (a : A) : St S E A := fun s => (Done a, s).

Definition bind {S E A B} (m : St S E A) (k : A → St S E B) : St S E B :=
  fun s =>
    match m s with
    | (Done a, s') => k a s'
    | (Fail e, s') => (Fail e, s')
    | (Diverge, s') => (Diverge, s')
    end.

Definition fail {S E A} (e : E) : St S E A := fun s => (Fail e, s).

Definition diverge {S E A} : St S E A := fun s => (Diverge, s).

Notation "x <~ m ;; k" := (bind m (fun x => k))
  (at level 100, m at next level, right associativity).
Notation "m ;;~ k" := (bind m (fun _ => k))
  (at level 100, right associativity).

End Eff.

(** ** [crypto_haiku_generator.py] *)

Module Generator.
Import Eff.

Definition LINE1_OPTIONS : list str :=
  [py "coins rise and fall fast";
   py "mining rigs hum low";
   py "blockchains weave secrets";
   py "whispers of the chain";
   py "wallets rest in cold"].

Definition LINE2_OPTIONS : list str :=
  [py "whales swim through the market";
   py "in digital seas we trade";
   py "gas fees burn like ember";
   py "nodes sync across the globe";
   py "charts dance in green and red"].

Definition LINE3_OPTIONS : list str :=
  [py "hold and never fear";
   py "crypto dreams at dawn";
   py "stars align with coins";
   py "hope in every block";
   py "fortunes flip a coin"].

Inductive exn := EOFError | IndexError.

(** The world of the script: how many numbers the module generator has
    drawn, the lines still to be read from standard input, and the text
    written to standard output. *)
Record world := World {
  drawn : nat;
  stdin : list str;
  stdout : str
}.

Section WithGenerator.

(** [randbelow k] is the [k]-th number the generator draws; the generator
    itself (a Mersenne twister seeded by the system) is not modelled. *)
Variable randbelow : nat → nat.

(** [random.choice(xs)]: the element at the index drawn. *)
Definition choice (xs : list str) : St world exn str :=
  fun w =>
    match xs with
    | [] => (Fail IndexError, w)
    | _ =>
        match xs !! randbelow (drawn w) with
        | Some x => (Done x, World (S (drawn w)) (stdin w) (stdout w))
        | None => (Fail IndexError, World (S (drawn w)) (stdin w) (stdout w))
        end
    end.

(** [print(text)] *)
Definition print (text : str) : St world exn unit :=
  fun w => (Done tt, World (drawn w) (stdin w) (stdout w ++ text ++ [10])).

(** [input(prompt)]: the prompt, then the next line; [EOFError] at the end
    of the input. *)
Definition input (prompt : str) : St world exn str :=
  fun w =>
    match stdin w with
    | [] => (Fail EOFError, World (drawn w) [] (stdout w ++ prompt))
    | line :: rest => (Done line, World (drawn w) rest (stdout w ++ prompt))
    end.

(** [generate_haiku()] *)
Definition generate_haiku : St world exn str :=
  line1 <~ choice LINE1_OPTIONS ;;
  line2 <~ choice LINE2_OPTIONS ;;
  line3 <~ choice LINE3_OPTIONS ;;
  ret (line1 ++ [10] ++ line2 ++ [10] ++ line3).

(** The loop [while True] of [main], with a budget of [fuel] passes. The
    lowered answer is only compared with "y", and "y" and "Y" are the only
    strings that [str.lower] turns into "y", so [lower_ascii] decides the
    test as the script does on every answer. *)
Fixpoint main_loop (fuel : nat) : St world exn unit :=
  match fuel with
  | O => diverge
  | S fuel =>
      haiku <~ generate_haiku ;;
      print (10 :: py "Your crypto haiku:" ++ [10]) ;;~
      print haiku ;;~
      again <~ input (10 :: py "Generate another? (y/n): ") ;;
      let again := Syllables.lower_ascii (strip again) in
      if decide (again ≠ py "y")
      then print (py "Goodbye! Keep your keys safe.")
      else main_loop fuel
  end.

(** [main()] *)
Definition main (fuel : nat) : St world exn unit :=
  print (py "Crypto Haiku Generator") ;;~
  print (py "----------------------") ;;~
  main_loop fuel.

End WithGenerator.

End Generator.

(** ** [advanced_crypto_haiku_generator.py]: the sampler and the lines *)

Module Sampler.
Import Eff Syllables.

Inductive exn := IndexError | KeyError.

(** [str.upper] on one ASCII character. *)
Definition upper_char (c : N) : N := if (97 <=? c) && (c <=? 122) then c - 32 else c.

(** [SYLLABLE_TARGETS] *)
Definition SYLLABLE_TARGETS : Z * Z * Z := (5, 7, 5)%Z.

(** The class [Haiku] and its [__str__]. *)
Record Haiku := { lines : str * str * str }.


Section WithGenerator.

(** The generator [self.rng] and the floating-point numbers computed from
    its values are not modelled. The state of a sampler is the number [k]
    of values [rng.random()] has returned, and the [k]-th value is known
    by what the script does with it: [hit k i] is the outcome of the test
    [acc >= pick] at turn [i] of the loop of [choice], and [low k] the
    outcome of [rng.random() < 0.5]. *)
Variable hit : nat → nat → bool.
Variable low : nat → bool.

(** The last loop of [choice]: the first word whose test succeeds. *)
Fixpoint first_hit (k i : nat) (items : list str) : option str :=
  match items with
  | [] => None
  | w :: rest => if hit k i then Some w else first_hit k (S i) rest
  end.

(** [EntropySampler.choice(items)]. The weights need [estimate_syllables]
    of every item, which always returns. *)
Definition choice (items : list str) : St nat exn str :=
  fun k =>
    match first_hit k 0 items with
    | Some w => (Done w, S k)
    | None =>
        match last items with
        | Some w => (Done w, S k)
        | None => (Fail IndexError, S k)
        end
    end.

(** [WORD_BANK[name]] *)
Definition bank (name : str) : St nat exn (list str) :=
  match WORD_BANK !! name with
  | Some pool => ret pool
  | None => fail KeyError
  end.

(** The [while] loop of one attempt of [fit_line], on [words] and [total];
    it returns their final values. *)
Fixpoint gather (fuel : nat) (target_syllables : Z) (words : list str) (total : Z)
  : St nat exn (list str * Z) :=
  match fuel with
  | O => diverge
  | S fuel =>
      if (total <? target_syllables)%Z && (length words <? 7)%nat then
        pool_name <~ choice [py "adjs"; py "nouns"; py "verbs"; py "extras"] ;;
        pool <~ bank pool_name ;;
        w <~ choice pool ;;
        let s := Z.of_nat (estimate_syllables w) in
        if (total + s <=? target_syllables)%Z then
          gather fuel target_syllables (words ++ [w]) (total + s)%Z
        else
          match short_pool target_syllables total with
          | None => fail KeyError
          | Some [] => ret (words, total)
          | Some short =>
              w2 <~ choice short ;;
              let s2 := Z.of_nat (estimate_syllables w2) in
              gather fuel target_syllables (words ++ [w2]) (total + s2)%Z
          end
      else ret (words, total)
  end.

(** One pass of the [for] loop of [fit_line]: the line it returns, if any. *)
Definition attempt (fuel : nat) (target_syllables : Z) : St nat exn (option str) :=
  r <~ gather fuel target_syllables [] 0%Z ;;
  let '(words, total) := r in
  if (total =? target_syllables)%Z && negb (bool_decide (words = [])) then
    let line := join (py " ") words in
    fun k =>
      (Done (Some (if low k then (upper_char <$> take 1 line) ++ drop 1 line else line)),
       S k)
  else ret None.

(** [for _ in range(n)]: the first attempt that returns a line. *)
Fixpoint attempts (n fuel : nat) (target_syllables : Z) : St nat exn (option str) :=
  match n with
  | O => ret None
  | S n =>
      r <~ attempt fuel target_syllables ;;
      match r with
      | Some line => ret (Some line)
      | None => attempts n fuel target_syllables
      end
  end.

(** The last loop of [fit_line], on [base]. *)
Fixpoint pad (fuel : nat) (target_syllables : Z) (base : str) : St nat exn str :=
  match fuel with
  | O => diverge
  | S fuel =>
      if (Z.of_nat (estimate_syllables base) <? target_syllables)%Z then
        w <~ choice [py "snow"; py "shadow"; py "seed"] ;;
        pad fuel target_syllables (base ++ py " " ++ w)
      else ret base
  end.

(** [fit_line(target_syllables, sampler)]; [fuel] bounds the passes of each
    [while] loop. *)
Definition fit_line (fuel : nat) (target_syllables : Z) : St nat exn str :=
  r <~ attempts 512 fuel target_syllables ;;
  match r with
  | Some line => ret line
  | None =>
      nouns <~ bank (py "nouns") ;;
      noun <~ choice nouns ;;
      verbs <~ bank (py "verbs") ;;
      verb <~ choice verbs ;;
      pad fuel target_syllables (noun ++ py " " ++ verb)
  end.

(** [generate_haiku(seed, salt)], from the sampler that [seed] and [salt]
    determine. *)
Definition generate_haiku (fuel : nat) : St nat exn Haiku :=
  let '(t1, t2, t3) := SYLLABLE_TARGETS in
  l1 <~ fit_line fuel t1 ;;
  l2 <~ fit_line fuel t2 ;;
  l3 <~ fit_line fuel t3 ;;
  ret {| lines := (l1, l2, l3) |}.

End WithGenerator.

End Sampler.

(** The haiku of [Generator.generate_haiku] when the generator is at its
    [d]-th number: the lines at the three indices drawn. *)
Definition haiku_of (randbelow : nat → nat) (d : nat) : str :=
  default [] (Generator.LINE1_OPTIONS !! randbelow d) ++ [10]
  ++ default [] (Generator.LINE2_OPTIONS !! randbelow (S d)) ++ [10]
  ++ default [] (Generator.LINE3_OPTIONS !! randbelow (S (S d))).

(** What one pass of the loop of [Generator.main] writes, and what [n]
    passes write, from the [d]-th number on. *)
Definition round_text (randbelow : nat → nat) (d : nat) : str :=
  (10 :: py "Your crypto haiku:" ++ [10]) ++ [10]
  ++ haiku_of randbelow d ++ [10]
  ++ (10 :: py "Generate another? (y/n): ").

Fixpoint rounds_text (randbelow : nat → nat) (d n : nat) : str :=
  match n with
  | O => []
  | S n => round_text randbelow d ++ rounds_text randbelow (3 + d) n
  end.

(** An answer that asks for another haiku: "y" or "Y" once stripped. *)
Definition says_yes (answer : str) : Prop :=
  strip answer = py "y" ∨ strip answer = py "Y".

(** All the words of the bank. *)
Definition bank_words : list str :=
  Syllables.bank_adjs ++ Syllables.bank_nouns ++ Syllables.bank_verbs
  ++ Syllables.bank_extras.

(** The estimates of the words of a line, added up. *)
Definition syllables_of (words : list str) : nat :=
  sum_list (Syllables.estimate_syllables <$> words).

(** [line[:1].upper() + line[1:]] on ASCII text. *)
Definition capitalized (line : str) : str :=
  (Sampler.upper_char <$> take 1 line) ++ drop 1 line.

(** A line that [fit_line] makes of [words]: the words joined by single
    spaces, with or without its first letter in upper case. *)
Definition line_of (words : list str) (line : str) : Prop :=
  line = join (py " ") words ∨ line = capitalized (join (py " ") words).

(** A line of [target] syllables: between one and seven words of the bank
    whose estimates add up to [target]. *)
Definition fits (target : Z) (line : str) : Prop :=
  ∃ words : list str,
    line_of words line
    ∧ Forall (fun w => w ∈ bank_words) words
    ∧ Z.of_nat (syllables_of words) = target
    ∧ (1 ≤ length words ≤ 7)%nat.

(** Boolean tests to propositions. *)
Ltac bool_to_prop :=
  repeat (rewrite ?orb_true_iff, ?orb_false_iff, ?andb_true_iff, ?andb_false_iff,
            ?N.eqb_eq, ?N.eqb_neq, ?N.leb_le, ?N.leb_gt, ?N.ltb_lt, ?N.ltb_ge in *).

(** ** SHA-256 test vectors *)

Example sha256_empty :
  Sha256.sha256_hex [] = py "e3b0c44298fc1c149afbf4c8996fb92427ae41e4649b934ca495991b7852b855".
Proof. vm_compute. reflexivity. Qed.

Example sha256_abc :
  Sha256.sha256_hex (utf8 (py "abc"))
  = py "ba7816bf8f01cfea414140de5dae2223b00361a396177a9cb410ff61f20015ad".
Proof. vm_compute. reflexivity. Qed.

Example sha256_two_blocks :
  Sha256.sha256_hex (utf8 (py "abcdbcdecdefdefgefghfghighijhijkijkljklmklmnlmnomnopnopq"))
  = py "248d6a61d20638b8e5c026930c3e6039a33ce45964ff2167f6ecedd419db06c1".
Proof. vm_compute. reflexivity. Qed.

(** ** Digests *)

Lemma hex_char_encodable c : is_hex_char c = true → encodable_char c = true.
Proof.
  unfold is_hex_char, encodable_char. intros H.
  apply orb_true_iff in H. apply orb_true_iff. left. apply N.ltb_lt.
  destruct H as [H|H]; apply andb_true_iff in H; destruct H as [_ H];
    apply N.leb_le in H; lia.
Qed.

Lemma digest_encodable s : is_digest s → encodable s.
Proof.
  intros [_ H]. unfold encodable. eapply Forall_impl; [exact H|].
  intros c Hc. simpl in Hc. by apply hex_char_encodable.
Qed.

Lemma hex_digit_is_hex d : d < 16 → is_hex_char (Sha256.hex_digit d) = true.
Proof.
  intros Hd. unfold Sha256.hex_digit, is_hex_char.
  destruct (N.ltb_spec d 10); apply orb_true_iff; [left|right];
    apply andb_true_iff; split; apply N.leb_le; lia.
Qed.

Lemma hexdigest_length bs : length (Sha256.hexdigest bs) = (2 * length bs)%nat.
Proof.
  unfold Sha256.hexdigest. induction bs as [|b bs IH]; [done|].
  cbn [mbind list_bind]. rewrite length_app, IH. simpl. lia.
Qed.

Lemma hexdigest_hex bs :
  Forall (fun b => b < 256) bs →
  Forall (fun c => is_hex_char c = true) (Sha256.hexdigest bs).
Proof.
  unfold Sha256.hexdigest. induction 1 as [|b bs Hb _ IH]; [constructor|].
  cbn [mbind list_bind]. apply Forall_app. split; [|exact IH].
  repeat constructor; apply hex_digit_is_hex.
  - apply N.Div0.div_lt_upper_bound. lia.
  - apply N.mod_lt. lia.
Qed.

Lemma word_bytes_spec x :
  length (Sha256.word_bytes x) = 4%nat ∧ Forall (fun b => b < 256) (Sha256.word_bytes x).
Proof.
  split; [done|]. unfold Sha256.word_bytes.
  repeat constructor; apply N.mod_lt; lia.
Qed.

Lemma sha256_spec msg :
  length (Sha256.sha256 msg) = 32%nat ∧ Forall (fun b => b < 256) (Sha256.sha256 msg).
Proof.
  unfold Sha256.sha256, Sha256.regs_bytes.
  set (r := fold_left _ _ _). clearbody r.
  split.
  - rewrite !length_app. by rewrite !(proj1 (word_bytes_spec _)).
  - rewrite !Forall_app. repeat split; apply word_bytes_spec.
Qed.

Lemma sha256_hex_is_digest msg : is_digest (Sha256.sha256_hex msg).
Proof.
  unfold Sha256.sha256_hex. split.
  - rewrite hexdigest_length, (proj1 (sha256_spec msg)). done.
  - apply hexdigest_hex, sha256_spec.
Qed.

(** ** Encoding *)

Lemma encode_utf8_ok s : encodable s → encode_utf8 s = Ok (utf8 s).
Proof.
  unfold encode_utf8, encodable. intros H.
  assert (forallb encodable_char s = true) as ->; [|done].
  induction H as [|c s Hc _ IH]; [done|]. simpl. by rewrite Hc, IH.
Qed.

Lemma encode_utf8_raises s : ¬ encodable s → encode_utf8 s = Raise UnicodeEncodeError.
Proof.
  unfold encode_utf8, encodable. intros H.
  destruct (forallb encodable_char s) eqn:E; [|done].
  exfalso. apply H. clear H. induction s as [|c s IH]; [constructor|].
  simpl in E. apply andb_true_iff in E. destruct E as [? ?]. constructor; auto.
Qed.

Lemma utf8_app a b : utf8 (a ++ b) = utf8 a ++ utf8 b.
Proof. unfold utf8. apply bind_app. Qed.

Lemma encodable_app a b : encodable (a ++ b) ↔ encodable a ∧ encodable b.
Proof. unfold encodable. apply Forall_app. Qed.

Lemma hash_pair_ok a b : encodable a → encodable b → hash_pair a b = Ok (combine a b).
Proof.
  intros Ha Hb. unfold hash_pair, combine.
  rewrite encode_utf8_ok by (by apply encodable_app). simpl. by rewrite utf8_app.
Qed.

Lemma combine_is_digest a b : is_digest (combine a b).
Proof. apply sha256_hex_is_digest. Qed.

Lemma combine_encodable a b : encodable (combine a b).
Proof. apply digest_encodable, combine_is_digest. Qed.

(** ** Running the primitives *)

Lemma bind_ok {A B} (m : M A) (k : A → M B) s a s' :
  m s = (Ok a, s') → bind m k s = k a s'.
Proof. unfold bind. by intros ->. Qed.

Lemma index_nat {A} (xs : list A) (i : nat) x :
  xs !! i = Some x → index xs (Z.of_nat i) = Ok x.
Proof.
  intros H. unfold index.
  destruct (Z.ltb_spec (Z.of_nat i) 0) as [?|_]; [lia|].
  destruct (Z.ltb_spec (Z.of_nat i) 0) as [?|_]; [lia|].
  by rewrite Nat2Z.id, H.
Qed.

Lemma index_last {A} (xs : list A) x : last xs = Some x → index xs (-1) = Ok x.
Proof.
  intros H. unfold index. simpl.
  rewrite last_lookup in H.
  assert (length xs ≠ 0%nat) by (intros E; rewrite E in H; by destruct xs).
  destruct (Z.ltb_spec (-1 + Z.of_nat (length xs)) 0) as [?|_]; [lia|].
  replace (Z.to_nat (-1 + Z.of_nat (length xs))) with (pred (length xs)) by lia.
  by rewrite H.
Qed.

Lemma index_last_empty {A} : index (@nil A) (-1) = Raise IndexError.
Proof. reflexivity. Qed.

Section Run.
Variables (sl : list (list str)) (ll : list (list ref)) (out : str).

Lemma strs_read_run r xs :
  sl !! r = Some xs → strs_read r (Store sl ll out) = (Ok xs, Store sl ll out).
Proof. unfold strs_read. simpl. by intros ->. Qed.

Lemma strs_new_run xs :
  strs_new xs (Store sl ll out) = (Ok (length sl), Store (sl ++ [xs]) ll out).
Proof. reflexivity. Qed.

Lemma strs_copy_run r xs :
  sl !! r = Some xs →
  strs_copy r (Store sl ll out) = (Ok (length sl), Store (sl ++ [xs]) ll out).
Proof.
  intros H. unfold strs_copy. by rewrite (bind_ok _ _ _ _ _ (strs_read_run _ _ H)).
Qed.

Lemma strs_len_run r xs :
  sl !! r = Some xs → strs_len r (Store sl ll out) = (Ok (length xs), Store sl ll out).
Proof.
  intros H. unfold strs_len. by rewrite (bind_ok _ _ _ _ _ (strs_read_run _ _ H)).
Qed.

Lemma strs_getitem_run r xs i x :
  sl !! r = Some xs → index xs i = Ok x →
  strs_getitem r i (Store sl ll out) = (Ok x, Store sl ll out).
Proof.
  intros H Hi. unfold strs_getitem.
  rewrite (bind_ok _ _ _ _ _ (strs_read_run _ _ H)). unfold lift. by rewrite Hi.
Qed.

Lemma strs_append_run r xs v :
  sl !! r = Some xs →
  strs_append r v (Store sl ll out) = (Ok tt, Store (<[r := xs ++ [v]]> sl) ll out).
Proof.
  intros H. unfold strs_append. by rewrite (bind_ok _ _ _ _ _ (strs_read_run _ _ H)).
Qed.

Lemma tree_read_run t ls :
  ll !! t = Some ls → tree_read t (Store sl ll out) = (Ok ls, Store sl ll out).
Proof. unfold tree_read. simpl. by intros ->. Qed.

Lemma tree_new_run ls :
  tree_new ls (Store sl ll out) = (Ok (length ll), Store sl (ll ++ [ls]) out).
Proof. reflexivity. Qed.

Lemma tree_getitem_run t ls i l :
  ll !! t = Some ls → index ls i = Ok l →
  tree_getitem t i (Store sl ll out) = (Ok l, Store sl ll out).
Proof.
  intros H Hi. unfold tree_getitem.
  rewrite (bind_ok _ _ _ _ _ (tree_read_run _ _ H)). unfold lift. by rewrite Hi.
Qed.

Lemma tree_append_run t ls l :
  ll !! t = Some ls →
  tree_append t l (Store sl ll out) = (Ok tt, Store sl (<[t := ls ++ [l]]> ll) out).
Proof.
  intros H. unfold tree_append. by rewrite (bind_ok _ _ _ _ _ (tree_read_run _ _ H)).
Qed.
End Run.

(** ** The loops of [build_merkle_tree] *)

Lemma build_merkle_tree_unfold fuel leaves :
  build_merkle_tree fuel leaves =
  (first <- strs_copy leaves ;;
   tree <- tree_new [first] ;;
   while_ fuel (build_cond tree) (build_body tree) ;;;
   ret tree).
Proof. reflexivity. Qed.

Lemma lookup_alloc0 {A} (l : list A) x y : (l ++ [x; y]) !! length l = Some x.
Proof. by rewrite list_lookup_middle. Qed.

Lemma lookup_alloc1 {A} (l : list A) x y : (l ++ [x; y]) !! S (length l) = Some y.
Proof.
  rewrite lookup_app_r by lia. by replace (S (length l) - length l)%nat with 1%nat by lia.
Qed.

Lemma insert_alloc0 {A} (l : list A) x y z : <[length l := z]> (l ++ [x; y]) = l ++ [z; y].
Proof.
  rewrite insert_app_r_alt by lia. by rewrite Nat.sub_diag.
Qed.

Lemma insert_alloc1 {A} (l : list A) x y z : <[S (length l) := z]> (l ++ [x; y]) = l ++ [x; z].
Proof.
  rewrite insert_app_r_alt by lia.
  by replace (S (length l) - length l)%nat with 1%nat by lia.
Qed.

Lemma pair_loop_run sl ll out cur m : ∀ k0 acc,
  length cur = (2 * (k0 + m))%nat → Forall encodable cur →
  for_ ((fun k => (0 + Z.of_nat k * 2)%Z) <$> seq k0 m)
       (pair_step (length sl) (S (length sl)))
       (Store (sl ++ [acc; cur]) ll out)
  = (Ok tt, Store (sl ++ [acc ++ hash_pairs (drop (2 * k0) cur); cur]) ll out).
Proof.
  induction m as [|m IH]; intros k0 acc Hlen Henc.
  - simpl. rewrite drop_ge by lia. simpl. by rewrite app_nil_r.
  - destruct (lookup_lt_is_Some_2 cur (2 * k0)) as [a Ha]; [lia|].
    destruct (lookup_lt_is_Some_2 cur (S (2 * k0))) as [b Hb]; [lia|].
    assert (encodable a) by (eapply Forall_lookup_1; eauto).
    assert (encodable b) by (eapply Forall_lookup_1; eauto).
    cbn [seq fmap list_fmap for_].
    replace (0 + Z.of_nat k0 * 2)%Z with (Z.of_nat (2 * k0)) by lia.
    unfold pair_step at 1.
    erewrite bind_ok; cycle 1.
    { erewrite bind_ok; cycle 1.
      { eapply strs_getitem_run; [apply lookup_alloc1|by apply index_nat]. }
      replace (Z.of_nat (2 * k0) + 1)%Z with (Z.of_nat (S (2 * k0))) by lia.
      erewrite bind_ok; cycle 1.
      { eapply strs_getitem_run; [apply lookup_alloc1|by apply index_nat]. }
      rewrite hash_pair_ok by done. unfold lift at 1.
      erewrite bind_ok by reflexivity.
      apply strs_append_run, lookup_alloc0. }
    rewrite insert_alloc0.
    rewrite (IH (S k0) (acc ++ [combine a b])) by (done || lia).
    do 3 f_equal. rewrite <- app_assoc. f_equal.
    rewrite (drop_S _ _ _ Ha), (drop_S _ _ _ Hb). simpl.
    by replace (S (k0 + S (k0 + 0)))%nat with (S (S (k0 + (k0 + 0))))%nat by lia.
Qed.

Lemma range_even m :
  range 0 (Z.of_nat (2 * m)) 2 = (fun k => (0 + Z.of_nat k * 2)%Z) <$> seq 0 m.
Proof.
  unfold range. do 2 f_equal.
  replace (Z.of_nat (2 * m) - 0 + 2 - 1)%Z with (1 + Z.of_nat m * 2)%Z by lia.
  rewrite Z.div_add by lia. change (1 `div` 2)%Z with 0%Z. lia.
Qed.

Lemma pad_odd_length c : length (pad_odd c) = (2 * ((length c + 1) / 2))%nat.
Proof.
  unfold pad_odd.
  destruct (last c) as [x|] eqn:E.
  - destruct (Nat.eqb_spec (length c mod 2) 1) as [H|H].
    + rewrite length_app. change (length [x]) with 1%nat. arith.
    + arith.
  - apply last_None in E. by subst.
Qed.

Lemma pad_run sl ll out acc c :
  (if (length c mod 2 =? 1)%nat
   then x <- strs_getitem (S (length sl)) (-1) ;; strs_append (S (length sl)) x
   else ret tt) (Store (sl ++ [acc; c]) ll out)
  = (Ok tt, Store (sl ++ [acc; pad_odd c]) ll out).
Proof.
  unfold pad_odd.
  destruct (Nat.eqb_spec (length c mod 2) 1) as [H|H].
  - destruct (last c) as [x|] eqn:E.
    + erewrite bind_ok; cycle 1.
      { eapply strs_getitem_run; [apply lookup_alloc1|by apply index_last]. }
      erewrite strs_append_run by apply lookup_alloc1.
      by rewrite insert_alloc1.
    + apply last_None in E. subst c. simpl in H. lia.
  - by destruct (last c).
Qed.

Lemma build_cond_run sl ll out t pre r c :
  ll !! t = Some (pre ++ [r]) → sl !! r = Some c →
  build_cond t (Store sl ll out) = (Ok (1 <? length c)%nat, Store sl ll out).
Proof.
  intros Ht Hr. unfold build_cond.
  erewrite bind_ok; cycle 1.
  { eapply tree_getitem_run; [exact Ht|]. apply index_last, last_snoc. }
  erewrite bind_ok; cycle 1.
  { by apply strs_len_run. }
  reflexivity.
Qed.

Lemma build_body_run sl ll out t pre r c :
  ll !! t = Some (pre ++ [r]) → sl !! r = Some c → Forall encodable c →
  build_body t (Store sl ll out)
  = (Ok tt, Store (sl ++ [next_layer c; pad_odd c])
                  (<[t := (pre ++ [r]) ++ [length sl]]> ll) out).
Proof.
  intros Ht Hr Henc. unfold build_body.
  erewrite bind_ok by apply strs_new_run.
  erewrite bind_ok; cycle 1.
  { eapply tree_getitem_run; [exact Ht|]. apply index_last, last_snoc. }
  erewrite bind_ok; cycle 1.
  { apply strs_copy_run. by apply lookup_app_l_Some. }
  rewrite <- app_assoc, length_app, Nat.add_1_r. cbn [app].
  erewrite bind_ok; cycle 1.
  { apply strs_len_run, lookup_alloc1. }
  erewrite bind_ok by apply pad_run.
  erewrite bind_ok; cycle 1.
  { apply strs_len_run, lookup_alloc1. }
  rewrite pad_odd_length, range_even.
  erewrite bind_ok; cycle 1.
  { apply pair_loop_run.
    - rewrite pad_odd_length. lia.
    - unfold pad_odd. destruct (last c) as [x|] eqn:E; [|done].
      destruct (_ =? _)%nat; [|done].
      apply Forall_app. split; [done|]. constructor; [|constructor].
      apply last_Some in E as [c' ->]. apply Forall_app in Henc as [_ Hx].
      by inversion Hx. }
  cbn [app drop]. by apply tree_append_run.
Qed.

(** ** Lengths of the layers *)

Lemma hash_pairs_length c : length (hash_pairs c) = (length c / 2)%nat.
Proof.
  assert (∀ c, length (hash_pairs c) = (length c / 2)%nat
               ∧ ∀ a, length (hash_pairs (a :: c)) = (S (length c) / 2)%nat) as H.
  { clear c. induction c as [|b c [IH1 IH2]]; [by split|].
    split; [apply IH2|]. intros a. cbn [hash_pairs length]. rewrite IH1. arith. }
  apply H.
Qed.

Lemma next_layer_length c : length (next_layer c) = ((length c + 1) / 2)%nat.
Proof.
  unfold next_layer. rewrite hash_pairs_length, pad_odd_length. arith.
Qed.

Lemma layers_above_fuel n : ∀ m c,
  (length c ≤ n)%nat → (length c ≤ m)%nat → layers_above n c = layers_above m c.
Proof.
  induction n as [|n IH]; intros m c Hn Hm.
  - destruct c; [|simpl in Hn; lia]. by destruct m.
  - destruct m as [|m].
    + destruct c; [done|simpl in Hm; lia].
    + cbn [layers_above]. destruct (Nat.ltb_spec 1 (length c)) as [H|H]; [|done].
      f_equal. apply IH; rewrite next_layer_length; arith.
Qed.

Lemma layers_above_step c :
  (1 < length c)%nat →
  layers_above (length c) c
  = next_layer c :: layers_above (length (next_layer c)) (next_layer c).
Proof.
  intros H. destruct (length c) as [|n] eqn:E; [lia|].
  cbn [layers_above]. rewrite E.
  destruct (Nat.ltb_spec 1 (S n)) as [_|?]; [|lia].
  f_equal. apply layers_above_fuel; [|done].
  rewrite next_layer_length, E. arith.
Qed.

Lemma layers_above_stop c : (length c ≤ 1)%nat → layers_above (length c) c = [].
Proof.
  intros H. destruct (length c) as [|n] eqn:E; [done|].
  cbn [layers_above]. rewrite E. by destruct (Nat.ltb_spec 1 (S n)) as [?|_]; [lia|].
Qed.

Lemma hash_pairs_digests c : Forall is_digest (hash_pairs c).
Proof.
  assert (∀ c, Forall is_digest (hash_pairs c)
               ∧ ∀ a, Forall is_digest (hash_pairs (a :: c))) as H.
  { clear c. induction c as [|b c [IH1 IH2]]; [by split; constructor|].
    split; [apply IH2|]. intros a. cbn [hash_pairs].
    constructor; [apply combine_is_digest|apply IH1]. }
  apply H.
Qed.

Lemma next_layer_digests c : Forall is_digest (next_layer c).
Proof. apply hash_pairs_digests. Qed.

Lemma Forall_digest_encodable c : Forall is_digest c → Forall encodable c.
Proof. intros H. eapply Forall_impl; [exact H|]. apply digest_encodable. Qed.

(** ** The [while] loop *)

Lemma build_loop_run fuel : ∀ sl ll out t pre r c,
  ll !! t = Some (pre ++ [r]) → sl !! r = Some c → Forall encodable c →
  (length c ≤ fuel)%nat → (0 < fuel)%nat →
  ∃ junk locs,
    while_ fuel (build_cond t) (build_body t) (Store sl ll out)
    = (Ok tt, Store (sl ++ junk) (<[t := pre ++ r :: locs]> ll) out)
    ∧ Forall2 (fun l layer => (sl ++ junk) !! l = Some layer)
              locs (layers_above (length c) c).
Proof.
  induction fuel as [|fuel IH]; intros sl ll out t pre r c Ht Hr Henc Hlen Hpos; [lia|].
  cbn [while_].
  erewrite bind_ok by (by eapply build_cond_run).
  destruct (Nat.ltb_spec 1 (length c)) as [Hc|Hc].
  - erewrite bind_ok by (by eapply build_body_run).
    assert (t < length ll)%nat as Htl by (by eapply lookup_lt_Some).
    destruct (IH (sl ++ [next_layer c; pad_odd c])
                 (<[t := (pre ++ [r]) ++ [length sl]]> ll) out t
                 (pre ++ [r]) (length sl) (next_layer c))
      as (junk & locs & Hrun & Hlocs).
    + by rewrite list_lookup_insert_eq.
    + apply lookup_alloc0.
    + apply Forall_digest_encodable, next_layer_digests.
    + rewrite next_layer_length. arith.
    + lia.
    + rewrite <- app_assoc in Hlocs.
      exists ([next_layer c; pad_odd c] ++ junk), (length sl :: locs). split.
      * etrans; [exact Hrun|].
        by rewrite list_insert_insert_eq, <- !app_assoc.
      * rewrite layers_above_step by done. constructor; [|done].
        by apply list_lookup_middle.
  - exists [], []. rewrite app_nil_r. split.
    + by rewrite list_insert_id.
    + rewrite layers_above_stop by lia. constructor.
Qed.

(** ** The whole of [build_merkle_tree] *)

Lemma tree_at_intro s t (locs : list ref) (layers : list (list str)) :
  listlists s !! t = Some locs →
  Forall2 (fun l layer => strlists s !! l = Some layer) locs layers →
  tree_at s t = Some layers.
Proof.
  intros Ht H. unfold tree_at. rewrite Ht. simpl. by apply mapM_Some.
Qed.

Lemma tree_at_elim s t layers :
  tree_at s t = Some layers →
  ∃ locs, listlists s !! t = Some locs
          ∧ Forall2 (fun l layer => strlists s !! l = Some layer) locs layers.
Proof.
  unfold tree_at. destruct (listlists s !! t) as [locs|]; [|done].
  simpl. intros H. exists locs. split; [done|]. by apply mapM_Some.
Qed.

Lemma tree_at_extends s s' t layers :
  extends s s' → tree_at s t = Some layers → tree_at s' t = Some layers.
Proof.
  intros ([k1 E1] & [k2 E2] & _) H.
  apply tree_at_elim in H as (locs & Ht & Hl).
  apply tree_at_intro with locs.
  - rewrite E2. by apply lookup_app_l_Some.
  - eapply Forall2_impl; [exact Hl|]. intros l layer Hx. simpl in Hx.
    rewrite E1. by apply lookup_app_l_Some.
Qed.

Lemma build_run fuel leaves s ls :
  strlists s !! leaves = Some ls → Forall encodable ls →
  (length ls ≤ fuel)%nat → (0 < fuel)%nat →
  ∃ junk locs,
    build_merkle_tree fuel leaves s
    = (Ok (length (listlists s)),
       Store (strlists s ++ junk) (listlists s ++ [locs]) (stdout s))
    ∧ Forall2 (fun l layer => (strlists s ++ junk) !! l = Some layer)
              locs (merkle_layers ls).
Proof.
  destruct s as [sl ll out]. cbn [strlists listlists stdout].
  intros Hl Henc Hfuel Hpos. rewrite build_merkle_tree_unfold.
  erewrite bind_ok by (by apply strs_copy_run).
  erewrite bind_ok by apply tree_new_run.
  destruct (build_loop_run fuel (sl ++ [ls]) (ll ++ [[length sl]]) out
              (length ll) [] (length sl) ls)
    as (junk & locs & Hrun & Hlocs); try done.
  - by apply list_lookup_middle.
  - by apply list_lookup_middle.
  - rewrite <- app_assoc in Hlocs.
    exists ([ls] ++ junk), (length sl :: locs). split.
    + erewrite bind_ok by exact Hrun. unfold ret. do 2 f_equal.
      * by rewrite <- app_assoc.
      * rewrite insert_app_r_alt by lia. by rewrite Nat.sub_diag.
    + constructor; [|done]. by apply list_lookup_middle.
Qed.

(** At most one leaf: the loop body is never entered, whatever the leaf. *)
Lemma build_short_run fuel leaves s ls :
  strlists s !! leaves = Some ls → (length ls ≤ 1)%nat → (0 < fuel)%nat →
  build_merkle_tree fuel leaves s
  = (Ok (length (listlists s)),
     Store (strlists s ++ [ls]) (listlists s ++ [[length (strlists s)]]) (stdout s)).
Proof.
  destruct s as [sl ll out]. cbn [strlists listlists stdout].
  intros Hl Hlen Hpos. rewrite build_merkle_tree_unfold.
  erewrite bind_ok by (by apply strs_copy_run).
  erewrite bind_ok by apply tree_new_run.
  destruct fuel as [|fuel]; [lia|].
  erewrite bind_ok; [reflexivity|]. cbn [while_].
  erewrite bind_ok; cycle 1.
  { eapply (build_cond_run _ _ _ _ [] (length sl) ls); by apply list_lookup_middle. }
  by destruct (Nat.ltb_spec 1 (length ls)) as [?|_]; [lia|].
Qed.

Lemma build_spec fuel leaves s ls :
  strlists s !! leaves = Some ls → Forall encodable ls →
  (length ls ≤ fuel)%nat → (0 < fuel)%nat →
  ∃ t s',
    build_merkle_tree fuel leaves s = (Ok t, s')
    ∧ tree_at s' t = Some (merkle_layers ls)
    ∧ extends s s'
    ∧ listlists s !! t = None.
Proof.
  intros Hl Henc Hfuel Hpos.
  destruct (build_run fuel leaves s ls) as (junk & locs & Hrun & Hlocs); try done.
  eexists _, _. split; [exact Hrun|]. split; [|split].
  - apply tree_at_intro with locs; [|done]. by apply list_lookup_middle.
  - repeat split; by eexists.
  - by apply lookup_ge_None.
Qed.

(** ** Shape of the layers *)

Lemma next_layer_nonempty c : c ≠ [] → next_layer c ≠ [].
Proof.
  intros Hc E. apply (f_equal length) in E. rewrite next_layer_length in E.
  destruct c; [done|]. cbn [length] in E. arith.
Qed.

Lemma layers_last n : ∀ c,
  c ≠ [] → (length c ≤ n)%nat → ∃ root, last (c :: layers_above n c) = Some [root].
Proof.
  induction n as [|n IH]; intros c Hc Hn.
  - destruct c; [done|simpl in Hn; lia].
  - cbn [layers_above]. destruct (Nat.ltb_spec 1 (length c)) as [H|H].
    + rewrite last_cons_cons. apply IH; [by apply next_layer_nonempty|].
      rewrite next_layer_length. arith.
    + destruct c as [|root [|? ?]]; [done| |simpl in H; lia]. by exists root.
Qed.

Lemma layers_succ n : ∀ c i li,
  (length c ≤ n)%nat →
  (c :: layers_above n c) !! i = Some li → (1 < length li)%nat →
  (c :: layers_above n c) !! S i = Some (next_layer li).
Proof.
  induction n as [|n IH]; intros c i li Hn Hi Hli.
  - destruct i; simpl in Hi; [|done]. injection Hi as ->. lia.
  - cbn [layers_above] in *. destruct (Nat.ltb_spec 1 (length c)) as [H|H].
    + destruct i as [|i].
      * simpl in Hi. by injection Hi as ->.
      * apply (IH (next_layer c) i li); [|done..].
        rewrite next_layer_length. arith.
    + destruct i as [|i]; simpl in Hi; [|done]. injection Hi as ->. lia.
Qed.

Lemma tree_root_run s t layers :
  tree_at s t = Some layers → tree_root t s = (root_of layers, s).
Proof.
  destruct s as [sl ll out]. intros H.
  apply tree_at_elim in H as (locs & Ht & Hl). cbn [listlists strlists] in *.
  unfold tree_root, root_of.
  destruct (last locs) as [top|] eqn:E.
  - apply last_Some in E as [locs' ->].
    apply Forall2_app_inv_l in Hl as (layers' & x & _ & Hx & ->).
    apply Forall2_cons_inv_l in Hx as (layer & ? & Htop & Hnil & ->).
    apply Forall2_nil_inv_l in Hnil as ->.
    rewrite last_snoc.
    erewrite bind_ok; cycle 1.
    { eapply tree_getitem_run; [exact Ht|]. apply index_last, last_snoc. }
    unfold strs_getitem. erewrite bind_ok by (by apply strs_read_run).
    by destruct layer.
  - apply last_None in E as ->. apply Forall2_nil_inv_l in Hl as ->.
    unfold tree_getitem, tree_read, bind. cbn [listlists]. by rewrite Ht.
Qed.

Lemma hash_pairs_app c : ∀ r,
  (length c mod 2 = 0)%nat → hash_pairs (c ++ r) = hash_pairs c ++ hash_pairs r.
Proof.
  assert (∀ c r,
    ((length c mod 2 = 0)%nat → hash_pairs (c ++ r) = hash_pairs c ++ hash_pairs r)
    ∧ ∀ a, ((S (length c) mod 2 = 0)%nat →
            hash_pairs (a :: c ++ r) = hash_pairs (a :: c) ++ hash_pairs r)) as H.
  { clear c. induction c as [|b c IH]; intros r.
    - split; [done|]. intros a Ha. cbn [length] in Ha. arith.
    - destruct (IH r) as [IH1 IH2]. split.
      + intros H. apply (IH2 b H).
      + intros a Ha. cbn [hash_pairs app]. f_equal. apply IH1.
        cbn [length] in Ha. arith. }
  intros r. apply H.
Qed.

(** An odd layer with more than one element: its last element is paired
    with itself, and that pair comes last in the next layer. *)
Lemma next_layer_odd c x :
  (length c mod 2 = 1)%nat → last c = Some x →
  last (next_layer c) = Some (combine x x).
Proof.
  intros Hodd Hx. unfold next_layer, pad_odd. rewrite Hx.
  destruct (Nat.eqb_spec (length c mod 2) 1) as [_|?]; [|done].
  apply last_Some in Hx as [c' ->]. rewrite length_app in Hodd.
  change (length [x]) with 1%nat in Hodd.
  rewrite <- app_assoc. rewrite hash_pairs_app by arith.
  cbn [app hash_pairs]. apply last_snoc.
Qed.

(** ** Theorems on [hash_pair] and [build_merkle_tree] *)

(** C5. [hash_pair(a, b)] is the lowercase hexadecimal SHA-256 digest of the
    UTF-8 bytes of [a] followed, with nothing in between, by those of [b]:
    a string of 64 hexadecimal digits. It holds for all strings that UTF-8
    can encode, so for all digests. *)
Theorem hash_pair_is_sha256_of_concatenation (a b : str) :
  encodable a → encodable b →
  hash_pair a b = Ok (Sha256.hexdigest (Sha256.sha256 (utf8 a ++ utf8 b)))
  ∧ is_digest (Sha256.hexdigest (Sha256.sha256 (utf8 a ++ utf8 b))).
Proof.
  intros Ha Hb. split.
  - by rewrite hash_pair_ok.
  - apply combine_is_digest.
Qed.

(** C1. From a store where [leaves] is a non-empty list of encodable
    strings, every run with at least [len(leaves)] loop tests returns a
    tree, and the last layer of that tree has exactly one element, the
    value of [tree[-1][0]]. *)
Theorem build_terminates_with_root fuel leaves s (ls : list str) :
  strlists s !! leaves = Some ls → ls ≠ [] → Forall encodable ls →
  (length ls ≤ fuel)%nat →
  ∃ t s' layers root,
    build_merkle_tree fuel leaves s = (Ok t, s')
    ∧ tree_at s' t = Some layers
    ∧ last layers = Some [root]
    ∧ tree_root t s' = (Ok root, s').
Proof.
  intros Hl Hne Henc Hfuel.
  assert (0 < fuel)%nat by (destruct ls; [done|simpl in Hfuel; lia]).
  destruct (build_spec fuel leaves s ls) as (t & s' & Hrun & Ht & _); try done.
  destruct (layers_last (length ls) ls) as [root Hroot]; try done.
  exists t, s', (merkle_layers ls), root. repeat split; try done.
  rewrite (tree_root_run _ _ _ Ht). unfold root_of, merkle_layers. by rewrite Hroot.
Qed.

(** C2. In the tree built from a non-empty list, every layer with more than
    one element is followed by a layer of half its length, rounded up. *)
Theorem build_layer_lengths fuel leaves s (ls : list str) :
  strlists s !! leaves = Some ls → ls ≠ [] → Forall encodable ls →
  (length ls ≤ fuel)%nat →
  ∃ t s' layers,
    build_merkle_tree fuel leaves s = (Ok t, s')
    ∧ tree_at s' t = Some layers
    ∧ ∀ i li, layers !! i = Some li → (1 < length li)%nat →
        ∃ lj, layers !! S i = Some lj
              ∧ length lj = ((length li + 1) / 2)%nat
              ∧ (length li ≤ 2 * length lj < length li + 2)%nat.
Proof.
  intros Hl Hne Henc Hfuel.
  assert (0 < fuel)%nat by (destruct ls; [done|simpl in Hfuel; lia]).
  destruct (build_spec fuel leaves s ls) as (t & s' & Hrun & Ht & _); try done.
  exists t, s', (merkle_layers ls). split; [done|]. split; [done|].
  intros i li Hi Hli. exists (next_layer li). split.
  - by apply layers_succ.
  - rewrite next_layer_length. split; [done|]. arith.
Qed.

(** C4. Three leaves [a], [b], [c]: the tree is [[a, b, c]], then
    [[hash_pair(a, b), hash_pair(c, c)]], then the root, the hash of those
    two. The layer stored in the tree keeps its three elements: the
    duplicate goes to the working copy. *)
Theorem build_three_leaves fuel leaves s (a b c : str) :
  strlists s !! leaves = Some [a; b; c] →
  encodable a → encodable b → encodable c → (3 ≤ fuel)%nat →
  ∃ t s' hab hcc root,
    build_merkle_tree fuel leaves s = (Ok t, s')
    ∧ hash_pair a b = Ok hab ∧ hash_pair c c = Ok hcc
    ∧ hash_pair hab hcc = Ok root
    ∧ tree_at s' t = Some [[a; b; c]; [hab; hcc]; [root]]
    ∧ tree_root t s' = (Ok root, s').
Proof.
  intros Hl Ha Hb Hc Hfuel.
  destruct (build_spec fuel leaves s [a; b; c]) as (t & s' & Hrun & Ht & _);
    [done|by repeat constructor|done|lia|].
  exists t, s', (combine a b), (combine c c),
    (combine (combine a b) (combine c c)).
  split; [done|]. rewrite !hash_pair_ok by (done || apply combine_encodable).
  repeat split; [done|]. by rewrite (tree_root_run _ _ _ Ht).
Qed.

(** C8. Four leaves give three layers, the second [[hash_pair(a, b),
    hash_pair(c, d)]] and the root the hash of those two; two leaves give
    two layers with root [hash_pair(x, y)]. *)
Theorem build_four_and_two_leaves fuel leaves4 leaves2 s (a b c d x y : str) :
  strlists s !! leaves4 = Some [a; b; c; d] →
  strlists s !! leaves2 = Some [x; y] →
  encodable a → encodable b → encodable c → encodable d →
  encodable x → encodable y → (4 ≤ fuel)%nat →
  (∃ t s' hab hcd root,
     build_merkle_tree fuel leaves4 s = (Ok t, s')
     ∧ hash_pair a b = Ok hab ∧ hash_pair c d = Ok hcd
     ∧ hash_pair hab hcd = Ok root
     ∧ tree_at s' t = Some [[a; b; c; d]; [hab; hcd]; [root]]
     ∧ tree_root t s' = (Ok root, s'))
  ∧ (∃ t s' root,
       build_merkle_tree fuel leaves2 s = (Ok t, s')
       ∧ hash_pair x y = Ok root
       ∧ tree_at s' t = Some [[x; y]; [root]]
       ∧ tree_root t s' = (Ok root, s')).
Proof.
  intros Hl4 Hl2 Ha Hb Hc Hd Hx Hy Hfuel. split.
  - destruct (build_spec fuel leaves4 s [a; b; c; d]) as (t & s' & Hrun & Ht & _);
      [done|by repeat constructor|done|lia|].
    exists t, s', (combine a b), (combine c d),
      (combine (combine a b) (combine c d)).
    split; [done|]. rewrite !hash_pair_ok by (done || apply combine_encodable).
    repeat split; [done|]. by rewrite (tree_root_run _ _ _ Ht).
  - destruct (build_spec fuel leaves2 s [x; y]) as (t & s' & Hrun & Ht & _);
      [done|by repeat constructor|simpl; lia|lia|].
    exists t, s', (combine x y).
    split; [done|]. rewrite !hash_pair_ok by done.
    repeat split; [done|]. by rewrite (tree_root_run _ _ _ Ht).
Qed.

(** C7. One leaf [a], any string at all: the tree is [[a]] with root [a].
    The run allocates the copy of the leaves and nothing else, so no layer
    was computed and nothing was hashed. *)
Theorem build_single_leaf fuel leaves s (a : str) :
  strlists s !! leaves = Some [a] → (1 ≤ fuel)%nat →
  ∃ t s',
    build_merkle_tree fuel leaves s = (Ok t, s')
    ∧ tree_at s' t = Some [[a]]
    ∧ tree_root t s' = (Ok a, s')
    ∧ strlists s' = strlists s ++ [[a]].
Proof.
  intros Hl Hfuel.
  pose proof (build_short_run fuel leaves s [a] Hl) as Hrun.
  eexists _, _. split; [apply Hrun; simpl; lia|].
  assert (tree_at (Store (strlists s ++ [[a]])
                         (listlists s ++ [[length (strlists s)]]) (stdout s))
                  (length (listlists s)) = Some [[a]]) as Ht.
  { eapply tree_at_intro; [by apply list_lookup_middle|].
    repeat constructor. by apply list_lookup_middle. }
  split; [done|]. split; [|done]. by rewrite (tree_root_run _ _ _ Ht).
Qed.

(** C10. The empty list: no exception, and the tree is [[[]]], one empty
    layer; reading its root, [tree[-1][0]], raises [IndexError]. *)
Theorem build_no_leaves fuel leaves s :
  strlists s !! leaves = Some [] → (1 ≤ fuel)%nat →
  ∃ t s',
    build_merkle_tree fuel leaves s = (Ok t, s')
    ∧ tree_at s' t = Some [[]]
    ∧ tree_root t s' = (Raise IndexError, s').
Proof.
  intros Hl Hfuel.
  pose proof (build_short_run fuel leaves s [] Hl) as Hrun.
  eexists _, _. split; [apply Hrun; simpl; lia|].
  assert (tree_at (Store (strlists s ++ [[]])
                         (listlists s ++ [[length (strlists s)]]) (stdout s))
                  (length (listlists s)) = Some [[]]) as Ht.
  { eapply tree_at_intro; [by apply list_lookup_middle|].
    repeat constructor. by apply list_lookup_middle. }
  split; [done|]. by rewrite (tree_root_run _ _ _ Ht).
Qed.

(** C6. Two calls on the same list object, one after the other: the first
    leaves the list as it was, both return, and the two trees, distinct
    objects, have the same layers and the same root. *)
Theorem build_deterministic fuel1 fuel2 leaves s (ls : list str) :
  strlists s !! leaves = Some ls → Forall encodable ls →
  (length ls ≤ fuel1)%nat → (0 < fuel1)%nat →
  (length ls ≤ fuel2)%nat → (0 < fuel2)%nat →
  ∃ t1 s1 t2 s2 layers,
    build_merkle_tree fuel1 leaves s = (Ok t1, s1)
    ∧ strlists s1 !! leaves = Some ls
    ∧ build_merkle_tree fuel2 leaves s1 = (Ok t2, s2)
    ∧ t1 ≠ t2
    ∧ tree_at s2 t1 = Some layers
    ∧ tree_at s2 t2 = Some layers
    ∧ tree_root t1 s2 = (root_of layers, s2)
    ∧ tree_root t2 s2 = (root_of layers, s2).
Proof.
  intros Hl Henc Hf1 Hp1 Hf2 Hp2.
  destruct (build_spec fuel1 leaves s ls) as (t1 & s1 & Hrun1 & Ht1 & Hext1 & _);
    try done.
  assert (strlists s1 !! leaves = Some ls) as Hl1.
  { destruct Hext1 as ([k ->] & _). by apply lookup_app_l_Some. }
  destruct (build_spec fuel2 leaves s1 ls) as (t2 & s2 & Hrun2 & Ht2 & Hext2 & Hnew);
    try done.
  pose proof (tree_at_extends _ _ _ _ Hext2 Ht1) as Ht1'.
  exists t1, s1, t2, s2, (merkle_layers ls).
  repeat split; try done.
  - intros ->. apply tree_at_elim in Ht1 as (? & Hx & _). congruence.
  - by apply tree_root_run.
  - by apply tree_root_run.
Qed.

(** The general form of the duplication rule of C4: in a tree built by
    [build_merkle_tree], a layer of odd length above one whose last element
    is [x] is followed by a layer whose last element is [hash_pair(x, x)]. *)
Lemma build_odd_layer fuel leaves s (ls : list str) :
  strlists s !! leaves = Some ls → Forall encodable ls →
  (length ls ≤ fuel)%nat → (0 < fuel)%nat →
  ∃ t s' layers,
    build_merkle_tree fuel leaves s = (Ok t, s')
    ∧ tree_at s' t = Some layers
    ∧ ∀ i li x, layers !! i = Some li → (1 < length li)%nat →
        (length li mod 2 = 1)%nat → last li = Some x →
        ∃ lj, layers !! S i = Some lj ∧ last lj = Some (combine x x).
Proof.
  intros Hl Henc Hfuel Hpos.
  destruct (build_spec fuel leaves s ls) as (t & s' & Hrun & Ht & _); try done.
  exists t, s', (merkle_layers ls). split; [done|]. split; [done|].
  intros i li x Hi Hli Hodd Hx. exists (next_layer li). split.
  - by apply layers_succ.
  - by apply next_layer_odd.
Qed.

(** ** [print_merkle_tree] *)

Lemma print_merkle_tree_unfold tree :
  print_merkle_tree tree =
  (layers <- tree_read tree ;; for_ (enumerate (reverse layers)) print_step).
Proof. reflexivity. Qed.

Lemma print_loop_run sl ll (rlocs : list ref) : ∀ (rlayers : list (list str)) k out,
  Forall2 (fun l layer => sl !! l = Some layer) rlocs rlayers →
  for_ (zip (seq k (length rlocs)) rlocs) print_step (Store sl ll out)
  = (Ok tt, Store sl ll (out ++ lines_text (render_from k rlayers))).
Proof.
  induction rlocs as [|l rlocs IH]; intros rlayers k out H.
  - apply Forall2_nil_inv_l in H as ->. simpl. unfold ret, lines_text. simpl.
    by rewrite app_nil_r.
  - apply Forall2_cons_inv_l in H as (hs & rlayers' & Hl & H & ->).
    cbn [length seq zip zip_with for_].
    erewrite bind_ok; cycle 1.
    { unfold print_step. erewrite bind_ok by (by apply strs_read_run). reflexivity. }
    unfold set_stdout. cbn [strlists listlists stdout].
    rewrite (IH rlayers' (S k)) by done.
    unfold lines_text. cbn [render_from mbind list_bind join].
    unfold render_line. by rewrite <- !app_assoc.
Qed.

Lemma render_from_length rlayers : ∀ k, length (render_from k rlayers) = length rlayers.
Proof. induction rlayers as [|hs r IH]; intros k; [done|]. simpl. by rewrite IH. Qed.

Lemma render_from_lookup rlayers : ∀ k d hs,
  rlayers !! d = Some hs → render_from k rlayers !! d = Some (render_line (k + d) hs).
Proof.
  induction rlayers as [|h r IH]; intros k d hs H; [done|].
  destruct d as [|d]; simpl in *.
  - injection H as ->. by rewrite Nat.add_0_r.
  - rewrite (IH (S k) d hs H). do 2 f_equal. lia.
Qed.

Lemma repeat_str_spaces d : repeat_str (py "    ") d = replicate (4 * d) 32.
Proof.
  induction d as [|d IH]; [done|].
  replace (4 * S d)%nat with (4 + 4 * d)%nat by lia.
  cbn [repeat_str]. by rewrite IH.
Qed.

Lemma print_merkle_tree_run s tree (layers : list (list str)) :
  tree_at s tree = Some layers →
  print_merkle_tree tree s
  = (Ok tt, Store (strlists s) (listlists s)
                  (stdout s ++ lines_text (render_from 0 (reverse layers)))).
Proof.
  destruct s as [sl ll out]. cbn [strlists listlists stdout]. intros H.
  apply tree_at_elim in H as (locs & Ht & Hl). cbn [strlists listlists] in *.
  rewrite print_merkle_tree_unfold.
  erewrite bind_ok by (by apply tree_read_run).
  unfold enumerate. apply print_loop_run. by apply Forall2_reverse.
Qed.

(** C9. [print_merkle_tree] prints one line per layer, the last layer (the
    root) first: at depth [d] from the root, [4 * d] spaces, then the first
    eight characters of each hash of that layer, separated by three spaces.
    The objects of the store are exactly what they were: only the output
    grew. *)
Theorem print_merkle_tree_spec s tree (layers : list (list str)) :
  tree_at s tree = Some layers →
  ∃ lines,
    print_merkle_tree tree s
    = (Ok tt, Store (strlists s) (listlists s) (stdout s ++ lines_text lines))
    ∧ length lines = length layers
    ∧ ∀ d hs, (d < length layers)%nat →
        layers !! (length layers - 1 - d)%nat = Some hs →
        lines !! d = Some (replicate (4 * d) 32
                           ++ join (py "   ") (take 8 <$> hs)).
Proof.
  intros H. exists (render_from 0 (reverse layers)). split; [|split].
  - by apply print_merkle_tree_run.
  - by rewrite render_from_length, length_reverse.
  - intros d hs Hd Hhs.
    rewrite (render_from_lookup _ 0 d hs).
    + unfold render_line. by rewrite repeat_str_spaces.
    + rewrite reverse_lookup by done.
      by replace (length layers - S d)%nat with (length layers - 1 - d)%nat by lia.
Qed.

(** ** [main] *)

Lemma print_run sl ll out args :
  print args (Store sl ll out) = (Ok tt, Store sl ll (out ++ join (py " ") args ++ [10])).
Proof. reflexivity. Qed.

Lemma prompt_run sl ll out p :
  prompt p (Store sl ll out) = (Ok tt, Store sl ll (out ++ p)).
Proof. reflexivity. Qed.

(** A line that is empty once stripped: the message, a normal return, and
    no object created. *)
Lemma main_blank_line fuel line s :
  strip line = [] →
  main fuel line s
  = (Ok tt, Store (strlists s) (listlists s)
                  (stdout s ++ banner ++ lines_text [py "No data provided. Exiting."])).
Proof.
  intros H. destruct s as [sl ll out]. unfold main. rewrite H.
  unfold bind, print, prompt, set_stdout, banner, lines_text.
  cbn [strlists listlists stdout mbind list_bind join].
  by rewrite <- !app_assoc.
Qed.

(** A line that is not empty once stripped but whose comma-separated tokens
    are all empty once stripped: no message about missing data; the tree of
    no leaves is built and printed as one empty line, and reading its root
    raises [IndexError]. *)
Lemma main_blank_tokens fuel line s :
  (1 ≤ fuel)%nat → strip line ≠ [] →
  Forall (fun v => strip v = []) (split 44 (strip line)) →
  main fuel line s
  = (Raise IndexError,
     Store (strlists s ++ [[]; []])
           (listlists s ++ [[S (length (strlists s))]])
           (stdout s ++ banner
            ++ lines_text [10 :: py "Merkle Tree (root at top, leaves at bottom):"; []])).
Proof.
  intros Hfuel Hne Htok. destruct s as [sl ll out]. unfold main.
  destruct (strip line) as [|c data] eqn:E; [done|].
  assert (filter (fun v => strip v ≠ []) (split 44 (c :: data)) = []) as ->.
  { induction Htok as [|v vs Hv _ IH]; [done|].
    rewrite filter_cons. destruct (decide (strip v ≠ [])); [done|exact IH]. }
  cbn [fmap list_fmap map_result strlists listlists stdout].
  do 2 erewrite bind_ok by apply print_run.
  erewrite bind_ok by apply prompt_run.
  erewrite bind_ok by reflexivity.
  erewrite bind_ok by apply strs_new_run.
  erewrite bind_ok; cycle 1.
  { apply (build_short_run fuel _ _ []); [|simpl; lia|lia].
    by apply list_lookup_middle. }
  cbn [strlists listlists stdout].
  rewrite <- app_assoc, length_app, Nat.add_1_r. cbn [app].
  erewrite bind_ok by apply print_run.
  assert (∀ o, tree_at (Store (sl ++ [[]; []]) (ll ++ [[S (length sl)]]) o)
                       (length ll) = Some [[]]) as Ht.
  { intros o. eapply tree_at_intro; [by apply list_lookup_middle|].
    repeat constructor. apply lookup_alloc1. }
  erewrite bind_ok by apply (print_merkle_tree_run _ _ _ (Ht _)).
  cbn [strlists listlists stdout].
  unfold bind. rewrite (tree_root_run _ _ _ (Ht _)).
  unfold root_of. cbn [last]. do 2 f_equal.
  unfold banner, lines_text, render_line.
  cbn [reverse rev_append render_from mbind list_bind join fmap list_fmap repeat_str].
  by rewrite <- !app_assoc.
Qed.

(** C3. The line [","] and the line [" , "]: every token is empty once
    stripped, yet [main] does not report missing data: it prints the
    heading of the tree and an empty line, and ends with [IndexError]. *)
Theorem main_separator_only_raises :
  main 1 (py ",") empty_store
  = (Raise IndexError,
     Store [[]; []] [[1%nat]]
       (banner
        ++ lines_text [10 :: py "Merkle Tree (root at top, leaves at bottom):"; []]))
  ∧ main 1 (py " , ") empty_store = main 1 (py ",") empty_store.
Proof. split; vm_compute; reflexivity. Qed.

(** The line ["tx1, tx2, tx3"]: three leaves, the hashes of the stripped
    tokens in their order, a tree of three layers, and the root. *)
Example main_three_transactions :
  main 3 (py "tx1, tx2, tx3") empty_store
  = (Ok tt,
     Store [tx_leaves; tx_leaves;
            [combine tx1 tx2; combine tx3 tx3];
            [tx1; tx2; tx3; tx3];
            [combine (combine tx1 tx2) (combine tx3 tx3)];
            [combine tx1 tx2; combine tx3 tx3]]
           [[1; 2; 4]%nat]
           (banner
            ++ lines_text
                 [10 :: py "Merkle Tree (root at top, leaves at bottom):";
                  py "fbf8b59f";
                  py "    f8f28ede   d2cd3d59";
                  py "        709b55bd   27ca64c0   1f3cb18e";
                  10 :: py "Merkle Root: fbf8b59f1ad5a1723f350e130dd75701c2b5c11a44b5ffc4e6ed48b2e1c34d8f"])).
Proof. vm_compute. reflexivity. Qed.

(** ** The theorems at concrete inputs *)

Lemma encodable_check (ls : list str) :
  forallb (forallb encodable_char) ls = true → Forall encodable ls.
Proof.
  induction ls as [|l ls IH]; [constructor|].
  simpl. intros H. apply andb_true_iff in H as [Hl Hls].
  constructor; [|by apply IH]. clear -Hl.
  induction l as [|c l IH]; [constructor|].
  simpl in Hl. apply andb_true_iff in Hl as [? ?]. constructor; [done|by apply IH].
Qed.

Lemma encodable_check1 (s : str) : forallb encodable_char s = true → encodable s.
Proof. intros H. apply (Forall_inv (encodable_check [s] ltac:(simpl; by rewrite H))). Qed.

Example tx_leaves_value :
  tx_leaves = [py "709b55bd3da0f5a838125bd0ee20c5bfdd7caba173912d4281cae816b79a201b";
               py "27ca64c092a959c7edc525ed45e845b1de6a7590d173fd2fad9133c8a779a1e3";
               py "1f3cb18e896256d7d6bb8c11a6ec71f005c75de05e39beae5d93bbd1e2c8b7a9"].
Proof. vm_compute. reflexivity. Qed.

Lemma hash_pair_is_sha256_of_concatenation_witness :
  hash_pair tx4 tx4
  = Ok (Sha256.hexdigest (Sha256.sha256 (utf8 tx4 ++ utf8 tx4)))
  ∧ is_digest (Sha256.hexdigest (Sha256.sha256 (utf8 tx4 ++ utf8 tx4))).
Proof.
  apply (hash_pair_is_sha256_of_concatenation tx4 tx4);
    by apply encodable_check1.
Defined.

Lemma build_terminates_with_root_witness :
  ∃ t s' layers root,
    build_merkle_tree 3 0 (leaves_store tx_leaves) = (Ok t, s')
    ∧ tree_at s' t = Some layers
    ∧ last layers = Some [root]
    ∧ tree_root t s' = (Ok root, s').
Proof.
  apply (build_terminates_with_root 3 0 (leaves_store tx_leaves) tx_leaves);
    [reflexivity | discriminate | by apply encodable_check | simpl; lia].
Defined.

Lemma build_layer_lengths_witness :
  ∃ t s' layers,
    build_merkle_tree 3 0 (leaves_store tx_leaves) = (Ok t, s')
    ∧ tree_at s' t = Some layers
    ∧ ∀ i li, layers !! i = Some li → (1 < length li)%nat →
        ∃ lj, layers !! S i = Some lj
              ∧ length lj = ((length li + 1) / 2)%nat
              ∧ (length li ≤ 2 * length lj < length li + 2)%nat.
Proof.
  apply (build_layer_lengths 3 0 (leaves_store tx_leaves) tx_leaves);
    [reflexivity | discriminate | by apply encodable_check | simpl; lia].
Defined.

Lemma build_three_leaves_witness :
  ∃ t s' hab hcc root,
    build_merkle_tree 3 0 (leaves_store tx_leaves) = (Ok t, s')
    ∧ hash_pair tx1 tx2 = Ok hab ∧ hash_pair tx3 tx3 = Ok hcc
    ∧ hash_pair hab hcc = Ok root
    ∧ tree_at s' t = Some [[tx1; tx2; tx3]; [hab; hcc]; [root]]
    ∧ tree_root t s' = (Ok root, s').
Proof.
  apply (build_three_leaves 3 0 (leaves_store tx_leaves) tx1 tx2 tx3);
    [reflexivity | by apply encodable_check1.. | lia].
Defined.

Lemma build_four_and_two_leaves_witness :
  (∃ t s' hab hcd root,
     build_merkle_tree 4 0 (Store [[tx1; tx2; tx3; tx4]; [tx4; tx1]] [] [])
     = (Ok t, s')
     ∧ hash_pair tx1 tx2 = Ok hab ∧ hash_pair tx3 tx4 = Ok hcd
     ∧ hash_pair hab hcd = Ok root
     ∧ tree_at s' t = Some [[tx1; tx2; tx3; tx4]; [hab; hcd]; [root]]
     ∧ tree_root t s' = (Ok root, s'))
  ∧ (∃ t s' root,
       build_merkle_tree 4 1 (Store [[tx1; tx2; tx3; tx4]; [tx4; tx1]] [] [])
       = (Ok t, s')
       ∧ hash_pair tx4 tx1 = Ok root
       ∧ tree_at s' t = Some [[tx4; tx1]; [root]]
       ∧ tree_root t s' = (Ok root, s')).
Proof.
  apply (build_four_and_two_leaves 4 0 1
           (Store [[tx1; tx2; tx3; tx4]; [tx4; tx1]] [] [])
           tx1 tx2 tx3 tx4 tx4 tx1);
    [reflexivity | reflexivity | by apply encodable_check1.. | lia].
Defined.

Lemma build_single_leaf_witness :
  ∃ t s',
    build_merkle_tree 1 0 (leaves_store [tx1]) = (Ok t, s')
    ∧ tree_at s' t = Some [[tx1]]
    ∧ tree_root t s' = (Ok tx1, s')
    ∧ strlists s' = strlists (leaves_store [tx1]) ++ [[tx1]].
Proof.
  apply (build_single_leaf 1 0 (leaves_store [tx1]) tx1); [reflexivity | lia].
Defined.

Lemma build_no_leaves_witness :
  ∃ t s',
    build_merkle_tree 1 0 (leaves_store []) = (Ok t, s')
    ∧ tree_at s' t = Some [[]]
    ∧ tree_root t s' = (Raise IndexError, s').
Proof.
  apply (build_no_leaves 1 0 (leaves_store [])); [reflexivity | lia].
Defined.

Lemma build_deterministic_witness :
  ∃ t1 s1 t2 s2 layers,
    build_merkle_tree 3 0 (leaves_store tx_leaves) = (Ok t1, s1)
    ∧ strlists s1 !! 0%nat = Some tx_leaves
    ∧ build_merkle_tree 5 0 s1 = (Ok t2, s2)
    ∧ t1 ≠ t2
    ∧ tree_at s2 t1 = Some layers
    ∧ tree_at s2 t2 = Some layers
    ∧ tree_root t1 s2 = (root_of layers, s2)
    ∧ tree_root t2 s2 = (root_of layers, s2).
Proof.
  apply (build_deterministic 3 5 0 (leaves_store tx_leaves) tx_leaves);
    [reflexivity | by apply encodable_check | simpl; lia..].
Defined.

Lemma print_merkle_tree_spec_witness :
  ∃ lines,
    print_merkle_tree 0 (Store [[tx1; tx2]; [tx3]] [[0; 1]%nat] [])
    = (Ok tt, Store [[tx1; tx2]; [tx3]] [[0; 1]%nat] ([] ++ lines_text lines))
    ∧ length lines = 2%nat
    ∧ ∀ d hs, (d < 2)%nat →
        [[tx1; tx2]; [tx3]] !! (2 - 1 - d)%nat = Some hs →
        lines !! d = Some (replicate (4 * d) 32
                           ++ join (py "   ") (take 8 <$> hs)).
Proof.
  apply (print_merkle_tree_spec (Store [[tx1; tx2]; [tx3]] [[0; 1]%nat] []) 0
           [[tx1; tx2]; [tx3]]).
  reflexivity.
Defined.

(** ** [str.strip] and [str.split] *)

Lemma lstrip_is_lstrip_by s : lstrip s = lstrip_by isspace s.
Proof. induction s as [|c s IH]; [done|]. simpl. by rewrite IH. Qed.

Lemma strip_is_strip_by s : strip s = strip_by isspace s.
Proof. unfold strip, rstrip, strip_by. by rewrite !lstrip_is_lstrip_by. Qed.

Section StripBy.
Variable p : N → bool.

Lemma lstrip_by_spec s :
  ∃ pre, s = pre ++ lstrip_by p s ∧ Forall (fun c => p c = true) pre
         ∧ (∀ c r, lstrip_by p s = c :: r → p c = false).
Proof.
  induction s as [|c s (pre & Hs & Hp & Hh)].
  - exists []. repeat split; [constructor|done].
  - simpl. destruct (p c) eqn:E.
    + exists (c :: pre). repeat split.
      * by rewrite Hs at 1.
      * by constructor.
      * done.
    + exists []. repeat split; [constructor|]. intros c' r [= <- _]. done.
Qed.

Lemma lstrip_by_removed pre x :
  Forall (fun c => p c = true) pre → lstrip_by p (pre ++ x) = lstrip_by p x.
Proof. induction 1 as [|c pre Hc _ IH]; [done|]. simpl. by rewrite Hc. Qed.

Lemma lstrip_by_keep m :
  (∀ c r, m = c :: r → p c = false) → lstrip_by p m = m.
Proof.
  destruct m as [|c r]; [done|]. intros H. simpl. by rewrite (H c r eq_refl).
Qed.

(** What [strip] returns: the middle of the string, between a prefix and a
    suffix of removable characters, itself empty or with a first and a last
    character that stay. *)
Lemma strip_by_spec s :
  ∃ pre suf, s = pre ++ strip_by p s ++ suf
         ∧ Forall (fun c => p c = true) pre
         ∧ Forall (fun c => p c = true) suf
         ∧ (∀ c r, strip_by p s = c :: r → p c = false)
         ∧ (∀ c r, strip_by p s = r ++ [c] → p c = false).
Proof.
  destruct (lstrip_by_spec s) as (pre & Hs & Hp & Hh).
  destruct (lstrip_by_spec (reverse (lstrip_by p s))) as (q & Hr & Hq & Hl).
  assert (lstrip_by p s = strip_by p s ++ reverse q) as Hm.
  { unfold strip_by. rewrite <- reverse_app, <- Hr. by rewrite reverse_involutive. }
  exists pre, (reverse q). repeat split.
  - by rewrite <- Hm.
  - done.
  - by apply Forall_reverse.
  - intros c r E. apply (Hh c (r ++ reverse q)). by rewrite Hm, E.
  - intros c r E. apply (Hl c (reverse r)).
    unfold strip_by in E. apply (f_equal reverse) in E.
    by rewrite reverse_involutive, reverse_snoc in E.
Qed.

Lemma strip_by_unique s pre m suf :
  s = pre ++ m ++ suf →
  Forall (fun c => p c = true) pre → Forall (fun c => p c = true) suf →
  (∀ c r, m = c :: r → p c = false) →
  (∀ c r, m = r ++ [c] → p c = false) →
  strip_by p s = m.
Proof.
  intros -> Hp Hq Hh Hl. unfold strip_by. rewrite lstrip_by_removed by done.
  destruct m as [|c r].
  - assert (lstrip_by p suf = []) as E.
    { rewrite <- (app_nil_r suf). by rewrite lstrip_by_removed. }
    simpl. by rewrite E.
  - rewrite (lstrip_by_keep ((c :: r) ++ suf))
      by (intros c' r' E; simpl in E; injection E as <- _; by apply (Hh c r)).
    rewrite reverse_app, lstrip_by_removed by (by apply Forall_reverse).
    rewrite lstrip_by_keep; [by rewrite reverse_involutive|].
    intros c' r' E. apply (Hl c' (reverse r')).
    apply (f_equal reverse) in E. by rewrite reverse_involutive, reverse_cons in E.
Qed.

Lemma strip_by_nil s : strip_by p s = [] ↔ Forall (fun c => p c = true) s.
Proof.
  split.
  - intros E. destruct (strip_by_spec s) as (pre & suf & Hs & Hp & Hq & _).
    rewrite E in Hs. rewrite Hs. by apply Forall_app.
  - intros H. apply (strip_by_unique s s [] []);
      [by rewrite app_nil_r | done | constructor | done | by intros ? [|? ?]].
Qed.

Lemma strip_by_idemp s : strip_by p (strip_by p s) = strip_by p s.
Proof.
  destruct (strip_by_spec s) as (pre & suf & _ & _ & _ & Hh & Hl).
  apply (strip_by_unique _ [] _ []); [by rewrite app_nil_r|constructor..|done|done].
Qed.

Lemma strip_by_subset c s : c ∈ strip_by p s → c ∈ s.
Proof.
  destruct (strip_by_spec s) as (pre & suf & Hs & _). intros H.
  rewrite Hs. rewrite !elem_of_app. auto.
Qed.


End StripBy.

Lemma strip_spec s :
  ∃ pre suf, s = pre ++ strip s ++ suf
         ∧ Forall (fun c => isspace c = true) pre
         ∧ Forall (fun c => isspace c = true) suf
         ∧ (∀ c r, strip s = c :: r → isspace c = false)
         ∧ (∀ c r, strip s = r ++ [c] → isspace c = false).
Proof. rewrite strip_is_strip_by. apply strip_by_spec. Qed.

Lemma strip_nil s : strip s = [] ↔ Forall (fun c => isspace c = true) s.
Proof. rewrite strip_is_strip_by. apply strip_by_nil. Qed.

Lemma strip_idemp s : strip (strip s) = strip s.
Proof. rewrite !strip_is_strip_by. apply strip_by_idemp. Qed.

Lemma strip_subset c s : c ∈ strip s → c ∈ s.
Proof. rewrite strip_is_strip_by. apply strip_by_subset. Qed.


Lemma split_nonempty sep s : split sep s ≠ [].
Proof.
  destruct s as [|c s]; [done|]. simpl.
  destruct (c =? sep); [done|]. by destruct (split sep s).
Qed.

Lemma join_split sep s : join [sep] (split sep s) = s.
Proof.
  induction s as [|c s IH]; [done|]. simpl.
  destruct (N.eqb_spec c sep) as [->|Hne].
  - destruct (split sep s) as [|tok toks] eqn:E; [by elim (split_nonempty sep s)|].
    change (join [sep] ([] :: tok :: toks)) with (sep :: join [sep] (tok :: toks)).
    by rewrite IH.
  - destruct (split sep s) as [|tok toks] eqn:E; [by elim (split_nonempty sep s)|].
    destruct toks; simpl in *; by rewrite IH.
Qed.

Lemma split_no_sep sep s : Forall (fun tok => sep ∉ tok) (split sep s).
Proof.
  induction s as [|c s IH]; simpl.
  - repeat constructor. apply not_elem_of_nil.
  - destruct (N.eqb_spec c sep) as [->|Hne].
    + constructor; [apply not_elem_of_nil|done].
    + destruct (split sep s) as [|tok toks] eqn:E; [by elim (split_nonempty sep s)|].
      inversion IH; subst. constructor; [|done].
      rewrite elem_of_cons. intros [?|?]; [congruence|done].
Qed.

Lemma split_length sep (s : list N) :
  length (split sep s) = S (length (filter (fun c => c = sep) s)).
Proof.
  induction s as [|c s IH]; [done|]. cbn [split]. rewrite filter_cons.
  destruct (N.eqb_spec c sep) as [->|Hne].
  - rewrite decide_True by done. cbn [length]. by rewrite IH.
  - rewrite decide_False by done. rewrite <- IH.
    destruct (split sep s) eqn:E; [by elim (split_nonempty sep s)|done].
Qed.

Lemma split_subset sep s tok c : tok ∈ split sep s → c ∈ tok → c ∈ s.
Proof.
  intros Ht Hc. rewrite <- (join_split sep s).
  generalize dependent (split sep s). intros toks. induction toks as [|t ts IH]; intros Ht.
  - by apply elem_of_nil in Ht.
  - apply elem_of_cons in Ht as [->|Ht].
    + destruct ts as [|t' ts]; [done|].
      change (c ∈ t ++ [sep] ++ join [sep] (t' :: ts)).
      rewrite elem_of_app. by left.
    + destruct ts as [|t' ts]; [by apply elem_of_nil in Ht|].
      change (c ∈ t ++ [sep] ++ join [sep] (t' :: ts)).
      rewrite !elem_of_app. right. right. by apply IH.
Qed.


(** ** Arithmetic of halving *)

Lemma ceil_half_pow n i :
  (((n + 2 ^ i - 1) / 2 ^ i + 1) / 2 = (n + 2 ^ S i - 1) / 2 ^ S i)%nat.
Proof.
  assert (0 < 2 ^ i)%nat as Hp by (apply Nat.neq_0_lt_0, Nat.pow_nonzero; lia).
  replace ((n + 2 ^ i - 1) / 2 ^ i + 1)%nat
    with ((n + 2 ^ i - 1 + 1 * 2 ^ i) / 2 ^ i)%nat
    by (rewrite Nat.div_add by lia; lia).
  rewrite Nat.Div0.div_div. rewrite Nat.pow_succ_r'.
  f_equal; lia.
Qed.

Lemma log2_up_half n :
  (1 < n)%nat → Nat.log2_up n = S (Nat.log2_up ((n + 1) / 2)).
Proof.
  intros Hn. apply Nat.log2_up_unique; [lia|]. cbn [Nat.pred].
  set (m := ((n + 1) / 2)%nat).
  assert (n ≤ 2 * m ∧ 2 * m ≤ n + 1)%nat as [H1 H2] by (unfold m; arith).
  destruct (decide (m ≤ 1)%nat) as [Hm|Hm].
  - assert (m = 1%nat) as -> by lia. rewrite Nat.log2_up_1. simpl. lia.
  - destruct (Nat.log2_up_spec m) as [Hlo Hhi]; [lia|].
    pose proof (Nat.log2_up_pos m ltac:(lia)) as Hk.
    destruct (Nat.log2_up m) as [|k]; [lia|].
    cbn [Nat.pred] in Hlo. rewrite !Nat.pow_succ_r' in *. lia.
Qed.

Lemma layers_above_length n : ∀ c,
  (length c ≤ n)%nat → length (layers_above n c) = Nat.log2_up (length c).
Proof.
  induction n as [|n IH]; intros c Hn.
  - destruct c; [done|simpl in Hn; lia].
  - cbn [layers_above]. destruct (Nat.ltb_spec 1 (length c)) as [H|H].
    + cbn [length]. rewrite IH by (rewrite next_layer_length; arith).
      rewrite next_layer_length. by rewrite <- log2_up_half.
    + simpl. symmetry. apply Nat.log2_up_eqn0. lia.
Qed.

Lemma layers_pred n : ∀ c i lj,
  (c :: layers_above n c) !! S i = Some lj →
  ∃ li, (c :: layers_above n c) !! i = Some li
        ∧ (1 < length li)%nat ∧ lj = next_layer li.
Proof.
  induction n as [|n IH]; intros c i lj Hj; [done|].
  cbn [layers_above] in *. destruct (Nat.ltb_spec 1 (length c)) as [H|H]; [|done].
  destruct i as [|i].
  - simpl in Hj. injection Hj as <-. by exists c.
  - apply (IH (next_layer c) i lj) in Hj. exact Hj.
Qed.

Lemma layers_lookup_length n c : ∀ i li,
  (c :: layers_above n c) !! i = Some li →
  length li = ((length c + 2 ^ i - 1) / 2 ^ i)%nat.
Proof.
  induction i as [|i IH]; intros li Hi.
  - simpl in Hi. injection Hi as <-. change (2 ^ 0)%nat with 1%nat.
    rewrite Nat.div_1_r. lia.
  - apply layers_pred in Hi as (lp & Hp & _ & ->).
    rewrite next_layer_length, (IH lp Hp). apply ceil_half_pow.
Qed.

(** ** The loops of [build_merkle_tree], in every outcome *)

Lemma encodable_dec (s : str) : {encodable s} + {¬ encodable s}.
Proof.
  destruct (forallb encodable_char s) eqn:E.
  - left. by apply encodable_check1.
  - right. intros H. apply encode_utf8_ok in H. unfold encode_utf8 in H.
    by rewrite E in H.
Qed.

Lemma Forall_encodable_dec (c : list str) :
  {Forall encodable c} + {Exists (fun x => ¬ encodable x) c}.
Proof.
  induction c as [|x c [IH|IH]].
  - left. constructor.
  - destruct (encodable_dec x) as [Hx|Hx].
    + left. by constructor.
    + right. by constructor.
  - right. by constructor 2.
Qed.

Lemma hash_pair_raises a b :
  ¬ (encodable a ∧ encodable b) → hash_pair a b = Raise UnicodeEncodeError.
Proof.
  intros H. unfold hash_pair. rewrite encode_utf8_raises; [done|].
  intros E. by apply encodable_app in E.
Qed.

(** The [for] loop stops at the first pair with a string that UTF-8 cannot
    encode. *)
Lemma pair_loop_raise sl ll out cur m : ∀ k0 acc,
  length cur = (2 * (k0 + m))%nat →
  Exists (fun x => ¬ encodable x) (drop (2 * k0) cur) →
  ∃ acc',
    for_ ((fun k => (0 + Z.of_nat k * 2)%Z) <$> seq k0 m)
         (pair_step (length sl) (S (length sl)))
         (Store (sl ++ [acc; cur]) ll out)
    = (Raise UnicodeEncodeError, Store (sl ++ [acc'; cur]) ll out).
Proof.
  induction m as [|m IH]; intros k0 acc Hlen Hbad.
  - rewrite drop_ge in Hbad by lia. by apply Exists_nil in Hbad.
  - destruct (lookup_lt_is_Some_2 cur (2 * k0)) as [a Ha]; [lia|].
    destruct (lookup_lt_is_Some_2 cur (S (2 * k0))) as [b Hb]; [lia|].
    rewrite (drop_S _ _ _ Ha), (drop_S _ _ _ Hb) in Hbad.
    cbn [seq fmap list_fmap for_].
    replace (0 + Z.of_nat k0 * 2)%Z with (Z.of_nat (2 * k0)) by lia.
    destruct (encodable_dec a) as [Hea|Hea]; [destruct (encodable_dec b) as [Heb|Heb]|].
    + erewrite bind_ok; cycle 1.
      { unfold pair_step. erewrite bind_ok; cycle 1.
        { eapply strs_getitem_run; [apply lookup_alloc1|by apply index_nat]. }
        replace (Z.of_nat (2 * k0) + 1)%Z with (Z.of_nat (S (2 * k0))) by lia.
        erewrite bind_ok; cycle 1.
        { eapply strs_getitem_run; [apply lookup_alloc1|by apply index_nat]. }
        rewrite hash_pair_ok by done. unfold lift at 1.
        erewrite bind_ok by reflexivity.
        apply strs_append_run, lookup_alloc0. }
      rewrite insert_alloc0.
      apply (IH (S k0)); [lia|].
      apply Exists_cons in Hbad as [?|Hbad]; [done|].
      apply Exists_cons in Hbad as [?|Hbad]; [done|].
      by replace (2 * S k0)%nat with (S (S (2 * k0))) by lia.
    + exists acc. unfold bind at 1. unfold pair_step.
      erewrite bind_ok; cycle 1.
      { eapply strs_getitem_run; [apply lookup_alloc1|by apply index_nat]. }
      replace (Z.of_nat (2 * k0) + 1)%Z with (Z.of_nat (S (2 * k0))) by lia.
      erewrite bind_ok; cycle 1.
      { eapply strs_getitem_run; [apply lookup_alloc1|by apply index_nat]. }
      rewrite hash_pair_raises by (by intros [_ ?]). reflexivity.
    + exists acc. unfold bind at 1. unfold pair_step.
      erewrite bind_ok; cycle 1.
      { eapply strs_getitem_run; [apply lookup_alloc1|by apply index_nat]. }
      replace (Z.of_nat (2 * k0) + 1)%Z with (Z.of_nat (S (2 * k0))) by lia.
      erewrite bind_ok; cycle 1.
      { eapply strs_getitem_run; [apply lookup_alloc1|by apply index_nat]. }
      rewrite hash_pair_raises by (by intros [? _]). reflexivity.
Qed.

Lemma pad_odd_prefix c : ∃ k, pad_odd c = c ++ k.
Proof.
  unfold pad_odd. destruct (last c) as [x|]; [|by exists []; rewrite app_nil_r].
  destruct (_ =? _)%nat; [by exists [x]|by exists []; rewrite app_nil_r].
Qed.

Lemma build_body_raise sl ll out t pre r c :
  ll !! t = Some (pre ++ [r]) → sl !! r = Some c →
  Exists (fun x => ¬ encodable x) c →
  ∃ acc,
    build_body t (Store sl ll out)
    = (Raise UnicodeEncodeError, Store (sl ++ [acc; pad_odd c]) ll out).
Proof.
  intros Ht Hr Hbad. unfold build_body.
  destruct (pair_loop_raise sl ll out (pad_odd c) ((length c + 1) / 2) 0 [])
    as [acc Hloop].
  { rewrite pad_odd_length. lia. }
  { destruct (pad_odd_prefix c) as [k ->]. cbn [drop Nat.mul]. apply Exists_app. by left. }
  exists acc.
  erewrite bind_ok by apply strs_new_run.
  erewrite bind_ok; cycle 1.
  { eapply tree_getitem_run; [exact Ht|]. apply index_last, last_snoc. }
  erewrite bind_ok; cycle 1.
  { apply strs_copy_run. by apply lookup_app_l_Some. }
  rewrite <- app_assoc, length_app, Nat.add_1_r. cbn [app].
  erewrite bind_ok; cycle 1.
  { apply strs_len_run, lookup_alloc1. }
  erewrite bind_ok by apply pad_run.
  erewrite bind_ok; cycle 1.
  { apply strs_len_run, lookup_alloc1. }
  rewrite pad_odd_length, range_even.
  unfold bind at 1. by rewrite Hloop.
Qed.

(** The loop on layers of encodable strings: it ends normally exactly when
    the budget exceeds the number of halvings, and the layers it appends
    are new objects. *)
Lemma build_loop_exact fuel : ∀ sl ll out t pre r c,
  ll !! t = Some (pre ++ [r]) → sl !! r = Some c → Forall encodable c →
  ∃ junk locs,
    while_ fuel (build_cond t) (build_body t) (Store sl ll out)
    = (if (Nat.log2_up (length c) <? fuel)%nat then Ok tt else OutOfFuel,
       Store (sl ++ junk) (<[t := pre ++ r :: locs]> ll) out)
    ∧ Forall (fun l => (length sl ≤ l)%nat) locs
    ∧ ((Nat.log2_up (length c) < fuel)%nat →
       Forall2 (fun l layer => (sl ++ junk) !! l = Some layer)
               locs (layers_above (length c) c)).
Proof.
  induction fuel as [|fuel IH]; intros sl ll out t pre r c Ht Hr Henc.
  - exists [], []. rewrite app_nil_r, list_insert_id by done.
    repeat split; [constructor|lia].
  - cbn [while_].
    erewrite bind_ok by (by eapply build_cond_run).
    destruct (Nat.ltb_spec 1 (length c)) as [Hc|Hc].
    + erewrite bind_ok by (by eapply build_body_run).
      assert (t < length ll)%nat as Htl by (by eapply lookup_lt_Some).
      destruct (IH (sl ++ [next_layer c; pad_odd c])
                   (<[t := (pre ++ [r]) ++ [length sl]]> ll) out t
                   (pre ++ [r]) (length sl) (next_layer c))
        as (junk & locs & Hrun & Hfresh & Hlocs).
      * by rewrite list_lookup_insert_eq.
      * apply lookup_alloc0.
      * apply Forall_digest_encodable, next_layer_digests.
      * rewrite <- app_assoc in Hlocs.
        rewrite next_layer_length, list_insert_insert_eq in Hrun.
        rewrite next_layer_length in Hlocs.
        exists ([next_layer c; pad_odd c] ++ junk), (length sl :: locs).
        rewrite (log2_up_half (length c)) by done. split; [|split].
        -- etrans; [exact Hrun|]. by rewrite <- !app_assoc.
        -- constructor; [lia|]. eapply Forall_impl; [exact Hfresh|].
           intros l. rewrite length_app. simpl. lia.
        -- intros Hf. rewrite layers_above_step by done.
           constructor; [by apply list_lookup_middle|].
           rewrite next_layer_length. apply Hlocs. lia.
    + exists [], []. rewrite app_nil_r, list_insert_id by done.
      rewrite Nat.log2_up_eqn0 by lia. repeat split; [constructor|].
      intros _. rewrite layers_above_stop by lia. constructor.
Qed.

(** The loop on a layer of more than one string, one of which UTF-8 cannot
    encode: [UnicodeEncodeError] in the first pass. *)
Lemma build_loop_raise fuel sl ll out t pre r c :
  ll !! t = Some (pre ++ [r]) → sl !! r = Some c →
  (1 < length c)%nat → Exists (fun x => ¬ encodable x) c →
  ∃ junk,
    while_ (S fuel) (build_cond t) (build_body t) (Store sl ll out)
    = (Raise UnicodeEncodeError, Store (sl ++ junk) ll out).
Proof.
  intros Ht Hr Hlen Hbad. cbn [while_].
  erewrite bind_ok by (by eapply build_cond_run).
  destruct (Nat.ltb_spec 1 (length c)) as [_|?]; [|lia].
  destruct (build_body_raise sl ll out t pre r c Ht Hr Hbad) as [acc Hbody].
  exists [acc; pad_odd c]. unfold bind. by rewrite Hbody.
Qed.

(** ** Further properties of [hash_pair] and [build_merkle_tree] *)

Lemma not_encodable_iff (s : str) :
  ¬ encodable s ↔ Exists (fun c => encodable_char c = false) s.
Proof.
  unfold encodable. induction s as [|c s IH].
  - split; [intros H; elim H; constructor|by intros H%Exists_nil].
  - rewrite Forall_cons, Exists_cons, <- IH.
    destruct (encodable_char c); split.
    + intros H. right. intros H'. by apply H.
    + intros [?|H]; [done|]. by intros [_ ?].
    + by left.
    + by intros _ [? _].
Qed.

(** X1. [hash_pair(a, b)] raises [UnicodeEncodeError] exactly when [a] or
    [b] holds a code point UTF-8 cannot encode (a lone surrogate), and
    returns the digest of the two encodings exactly when neither does. *)
Theorem hash_pair_outcome (a b : str) :
  (hash_pair a b = Raise UnicodeEncodeError
   ↔ Exists (fun c => encodable_char c = false) (a ++ b))
  ∧ (hash_pair a b = Ok (combine a b) ↔ encodable a ∧ encodable b).
Proof.
  rewrite <- not_encodable_iff, encodable_app.
  destruct (encodable_dec a) as [Ha|Ha]; [destruct (encodable_dec b) as [Hb|Hb]|].
  - rewrite hash_pair_ok by done. intuition congruence.
  - rewrite hash_pair_raises by (by intros [_ ?]). intuition congruence.
  - rewrite hash_pair_raises by (by intros [? _]). intuition congruence.
Qed.

Lemma build_exact fuel leaves s (ls : list str) :
  strlists s !! leaves = Some ls → Forall encodable ls →
  ∃ junk locs,
    build_merkle_tree fuel leaves s
    = (if (Nat.log2_up (length ls) <? fuel)%nat
       then Ok (length (listlists s)) else OutOfFuel,
       Store (strlists s ++ junk) (listlists s ++ [locs]) (stdout s))
    ∧ Forall (fun l => (length (strlists s) ≤ l)%nat) locs
    ∧ ((Nat.log2_up (length ls) < fuel)%nat →
       Forall2 (fun l layer => (strlists s ++ junk) !! l = Some layer)
               locs (merkle_layers ls)).
Proof.
  destruct s as [sl ll out]. cbn [strlists listlists stdout].
  intros Hl Henc. rewrite build_merkle_tree_unfold.
  erewrite bind_ok by (by apply strs_copy_run).
  erewrite bind_ok by apply tree_new_run.
  destruct (build_loop_exact fuel (sl ++ [ls]) (ll ++ [[length sl]]) out
              (length ll) [] (length sl) ls)
    as (junk & locs & Hrun & Hfresh & Hlocs); try done.
  - by apply list_lookup_middle.
  - by apply list_lookup_middle.
  - rewrite <- app_assoc in Hlocs.
    rewrite insert_app_r_alt, Nat.sub_diag in Hrun by lia.
    cbn [insert list_insert app] in Hrun.
    exists ([ls] ++ junk), (length sl :: locs). split; [|split].
    + unfold bind. rewrite Hrun, <- app_assoc.
      by destruct (Nat.log2_up (length ls) <? fuel)%nat.
    + constructor; [lia|]. eapply Forall_impl; [exact Hfresh|].
      intros l. rewrite length_app. simpl. lia.
    + intros Hf. constructor; [by apply list_lookup_middle|]. by apply Hlocs.
Qed.

Lemma build_exact_spec fuel leaves s (ls : list str) :
  strlists s !! leaves = Some ls → Forall encodable ls →
  (Nat.log2_up (length ls) < fuel)%nat →
  ∃ t s',
    build_merkle_tree fuel leaves s = (Ok t, s')
    ∧ tree_at s' t = Some (merkle_layers ls)
    ∧ extends s s'.
Proof.
  intros Hl Henc Hfuel.
  destruct (build_exact fuel leaves s ls) as (junk & locs & Hrun & _ & Hlocs); try done.
  destruct (Nat.ltb_spec (Nat.log2_up (length ls)) fuel) as [_|?]; [|lia].
  eexists _, _. split; [exact Hrun|]. split.
  - apply tree_at_intro with locs; [by apply list_lookup_middle|by apply Hlocs].
  - repeat split; by eexists.
Qed.

(** X2. The tree built from [n] leaves has [1 + ceil(log2 n)] layers, and
    layer [i] has [ceil(n / 2^i)] elements. *)
Theorem build_layer_count_and_sizes fuel leaves s (ls : list str) :
  strlists s !! leaves = Some ls → Forall encodable ls →
  (Nat.log2_up (length ls) < fuel)%nat →
  ∃ t s' layers,
    build_merkle_tree fuel leaves s = (Ok t, s')
    ∧ tree_at s' t = Some layers
    ∧ length layers = S (Nat.log2_up (length ls))
    ∧ ∀ i li, layers !! i = Some li →
        length li = ((length ls + 2 ^ i - 1) / 2 ^ i)%nat.
Proof.
  intros Hl Henc Hfuel.
  destruct (build_exact_spec fuel leaves s ls) as (t & s' & Hrun & Ht & _); try done.
  exists t, s', (merkle_layers ls). repeat split; try done.
  - unfold merkle_layers. cbn [length]. by rewrite layers_above_length.
  - intros i li. apply layers_lookup_length.
Qed.

(** X3. The [while] loop makes exactly [ceil(log2 n)] passes on [n] leaves:
    the call returns when the budget of loop tests exceeds that number and
    exhausts any smaller budget. *)
Theorem build_loop_passes fuel leaves s (ls : list str) :
  strlists s !! leaves = Some ls → Forall encodable ls →
  ∃ s',
    build_merkle_tree fuel leaves s
    = (if (Nat.log2_up (length ls) <? fuel)%nat
       then Ok (length (listlists s)) else OutOfFuel, s').
Proof.
  intros Hl Henc.
  destruct (build_exact fuel leaves s ls) as (junk & locs & Hrun & _); try done.
  by eexists.
Qed.

(** X4. Whatever the leaves are, every element of every layer above them is
    a digest: 64 lowercase hexadecimal digits. *)
Theorem build_upper_layers_are_digests fuel leaves s (ls : list str) :
  strlists s !! leaves = Some ls → Forall encodable ls →
  (Nat.log2_up (length ls) < fuel)%nat →
  ∃ t s' layers,
    build_merkle_tree fuel leaves s = (Ok t, s')
    ∧ tree_at s' t = Some layers
    ∧ ∀ i li, layers !! S i = Some li → Forall is_digest li.
Proof.
  intros Hl Henc Hfuel.
  destruct (build_exact_spec fuel leaves s ls) as (t & s' & Hrun & Ht & _); try done.
  exists t, s', (merkle_layers ls). repeat split; try done.
  intros i li Hi. apply layers_pred in Hi as (lp & _ & _ & ->).
  apply next_layer_digests.
Qed.

(** X5. More than one leaf, one of which UTF-8 cannot encode: the call
    raises [UnicodeEncodeError] in its first pass, and the list of leaves
    is as it was. *)
Theorem build_raises_on_unencodable_leaf fuel leaves s (ls : list str) :
  strlists s !! leaves = Some ls → (1 < length ls)%nat →
  Exists (fun x => ¬ encodable x) ls → (0 < fuel)%nat →
  ∃ s',
    build_merkle_tree fuel leaves s = (Raise UnicodeEncodeError, s')
    ∧ strlists s' !! leaves = Some ls
    ∧ stdout s' = stdout s.
Proof.
  destruct s as [sl ll out]. cbn [strlists listlists stdout].
  intros Hl Hlen Hbad Hfuel. destruct fuel as [|fuel]; [lia|].
  rewrite build_merkle_tree_unfold.
  erewrite bind_ok by (by apply strs_copy_run).
  erewrite bind_ok by apply tree_new_run.
  destruct (build_loop_raise fuel (sl ++ [ls]) (ll ++ [[length sl]]) out
              (length ll) [] (length sl) ls) as [junk Hrun]; try done.
  - by apply list_lookup_middle.
  - by apply list_lookup_middle.
  - eexists. unfold bind. rewrite Hrun. split; [done|]. split; [|done].
    cbn [strlists]. rewrite <- app_assoc. by apply lookup_app_l_Some.
Qed.

Lemma next_layer_dup (ls : list str) x :
  (length ls mod 2 = 1)%nat → last ls = Some x →
  next_layer (ls ++ [x]) = next_layer ls.
Proof.
  intros Hodd Hx. unfold next_layer, pad_odd.
  rewrite last_snoc, Hx, length_app. change (length [x]) with 1%nat.
  destruct (Nat.eqb_spec ((length ls + 1) mod 2) 1) as [E|_]; [arith|].
  by destruct (Nat.eqb_spec (length ls mod 2) 1) as [_|?].
Qed.

Lemma layers_above_dup (ls : list str) x :
  (1 < length ls)%nat → (length ls mod 2 = 1)%nat → last ls = Some x →
  layers_above (length (ls ++ [x])) (ls ++ [x]) = layers_above (length ls) ls.
Proof.
  intros Hlen Hodd Hx.
  rewrite (layers_above_step ls) by done.
  rewrite (layers_above_step (ls ++ [x])) by (rewrite length_app; simpl; lia).
  by rewrite next_layer_dup.
Qed.

Lemma root_of_above c1 c2 (rest : list (list str)) :
  rest ≠ [] → root_of (c1 :: rest) = root_of (c2 :: rest).
Proof. intros H. unfold root_of. destruct rest; [done|]. by rewrite !last_cons_cons. Qed.

(** X6. A list of odd length above one and the same list with its last
    element once more give trees that agree in every layer above the
    leaves, so the two lists have the same Merkle root. *)
Theorem build_duplicate_last_same_root fuel l1 l2 s (ls : list str) (x : str) :
  strlists s !! l1 = Some ls → strlists s !! l2 = Some (ls ++ [x]) →
  last ls = Some x → (length ls mod 2 = 1)%nat → (1 < length ls)%nat →
  Forall encodable ls → (Nat.log2_up (S (length ls)) < fuel)%nat →
  ∃ t1 s1 t2 s2 layers1 layers2,
    build_merkle_tree fuel l1 s = (Ok t1, s1)
    ∧ build_merkle_tree fuel l2 s = (Ok t2, s2)
    ∧ tree_at s1 t1 = Some layers1
    ∧ tree_at s2 t2 = Some layers2
    ∧ tail layers1 = tail layers2
    ∧ tree_root t1 s1 = (root_of layers1, s1)
    ∧ tree_root t2 s2 = (root_of layers2, s2)
    ∧ root_of layers1 = root_of layers2.
Proof.
  intros H1 H2 Hx Hodd Hlen Henc Hfuel.
  assert (encodable x) as Hex.
  { apply last_Some in Hx as [l' ->]. apply Forall_app in Henc as [_ H].
    by inversion H. }
  destruct (build_exact_spec fuel l1 s ls) as (t1 & s1 & Hr1 & Ht1 & _); try done.
  { pose proof (Nat.log2_up_le_mono (length ls) (S (length ls))). lia. }
  destruct (build_exact_spec fuel l2 s (ls ++ [x])) as (t2 & s2 & Hr2 & Ht2 & _);
    try done.
  { apply Forall_app. split; [done|by constructor]. }
  { rewrite length_app. simpl. by rewrite Nat.add_1_r. }
  exists t1, s1, t2, s2, (merkle_layers ls), (merkle_layers (ls ++ [x])).
  assert (tail (merkle_layers ls) = tail (merkle_layers (ls ++ [x]))) as Htail.
  { unfold merkle_layers. cbn [tail]. by rewrite layers_above_dup. }
  repeat split; try done; try by apply tree_root_run.
  unfold merkle_layers in *. cbn [tail] in Htail. rewrite <- Htail.
  apply root_of_above. rewrite layers_above_step by done. done.
Qed.

(** X7. The tree holds a copy of the leaves, not the list it was given:
    appending to that list after the call changes no layer of the tree. *)
Theorem build_tree_not_aliased fuel leaves s (ls : list str) (v : str) :
  strlists s !! leaves = Some ls → Forall encodable ls →
  (Nat.log2_up (length ls) < fuel)%nat →
  ∃ t s' s'',
    build_merkle_tree fuel leaves s = (Ok t, s')
    ∧ strs_append leaves v s' = (Ok tt, s'')
    ∧ strlists s'' !! leaves = Some (ls ++ [v])
    ∧ tree_at s'' t = Some (merkle_layers ls).
Proof.
  intros Hl Henc Hfuel.
  destruct (build_exact fuel leaves s ls) as (junk & locs & Hrun & Hfresh & Hlocs);
    try done.
  destruct (Nat.ltb_spec (Nat.log2_up (length ls)) fuel) as [_|?]; [|lia].
  specialize (Hlocs Hfuel).
  assert (leaves < length (strlists s))%nat as Hlt by (by eapply lookup_lt_Some).
  eexists _, _, _. split; [exact Hrun|]. split.
  { apply strs_append_run. by apply lookup_app_l_Some. }
  split.
  - cbn [strlists]. apply list_lookup_insert_eq. rewrite length_app. lia.
  - apply tree_at_intro with locs; [by apply list_lookup_middle|].
    cbn [strlists]. clear Hrun.
    induction Hlocs as [|l layer locs layers Hl1 _ IH]; [constructor|].
    inversion Hfresh; subst. constructor; [|by apply IH].
    rewrite list_lookup_insert_ne by lia. done.
Qed.

Lemma build_no_fuel leaves s (ls : list str) :
  strlists s !! leaves = Some ls →
  build_merkle_tree 0 leaves s
  = (OutOfFuel,
     Store (strlists s ++ [ls]) (listlists s ++ [[length (strlists s)]]) (stdout s)).
Proof.
  destruct s as [sl ll out]. cbn [strlists listlists stdout]. intros Hl.
  rewrite build_merkle_tree_unfold.
  erewrite bind_ok by (by apply strs_copy_run).
  erewrite bind_ok by apply tree_new_run. reflexivity.
Qed.

Lemma extends_app sl ll out junk more :
  extends (Store sl ll out) (Store (sl ++ junk) (ll ++ more) out).
Proof. repeat split; by eexists. Qed.

Lemma build_extends fuel leaves s : extends s (build_merkle_tree fuel leaves s).2.
Proof.
  destruct (strlists s !! leaves) as [ls|] eqn:Hl.
  - destruct (Forall_encodable_dec ls) as [Henc|Hbad].
    + destruct (build_exact fuel leaves s ls) as (junk & locs & -> & _); [done..|].
      destruct s. apply extends_app.
    + destruct fuel as [|fuel].
      { rewrite (build_no_fuel _ _ _ Hl). destruct s. apply extends_app. }
      destruct (decide (1 < length ls)%nat) as [Hlen|Hlen].
      * destruct s as [sl ll out]. cbn [strlists] in Hl.
        rewrite build_merkle_tree_unfold.
        erewrite bind_ok by (by apply strs_copy_run).
        erewrite bind_ok by apply tree_new_run.
        destruct (build_loop_raise fuel (sl ++ [ls]) (ll ++ [[length sl]]) out
                    (length ll) [] (length sl) ls) as [junk Hrun]; try done.
        { by apply list_lookup_middle. }
        { by apply list_lookup_middle. }
        unfold bind. rewrite Hrun. cbn [snd]. rewrite <- app_assoc.
        apply extends_app.
      * rewrite (build_short_run (S fuel) leaves s ls) by (done || lia).
        destruct s. apply extends_app.
  - destruct s as [sl ll out]. cbn [strlists] in Hl.
    unfold build_merkle_tree, bind, strs_copy, bind, strs_read. cbn [strlists].
    rewrite Hl. cbn [snd]. rewrite <- (app_nil_r sl) at 2.
    rewrite <- (app_nil_r ll) at 2. apply extends_app.
Qed.

(** X8. However the call ends (a tree, an exception, an exhausted budget),
    [build_merkle_tree] changes no list that existed before it, its
    argument included, and prints nothing. *)
Theorem build_changes_no_object fuel leaves s res s' :
  build_merkle_tree fuel leaves s = (res, s') →
  (∀ r (xs : list str), strlists s !! r = Some xs → strlists s' !! r = Some xs)
  ∧ (∀ t (ls : list nat), listlists s !! t = Some ls → listlists s' !! t = Some ls)
  ∧ stdout s' = stdout s.
Proof.
  intros Hrun. pose proof (build_extends fuel leaves s) as H.
  rewrite Hrun in H. cbn [snd] in H. destruct H as ([k1 ->] & [k2 ->] & ->).
  repeat split; intros; by apply lookup_app_l_Some.
Qed.

(** ** Further properties of [main] *)


Lemma main_items_elem (line : str) item :
  item ∈ main_items line →
  ∃ tok, tok ∈ split 44 (strip line) ∧ strip tok ≠ [] ∧ item = strip tok.
Proof.
  unfold main_items. intros H. apply list_elem_of_fmap in H as (tok & -> & H).
  apply list_elem_of_filter in H as [H1 H2]. by exists tok.
Qed.

Lemma main_items_chars (line : str) item c :
  item ∈ main_items line → c ∈ item → c ∈ line.
Proof.
  intros (tok & Ht & _ & ->)%main_items_elem Hc.
  apply strip_subset in Hc. apply (split_subset _ _ _ _ Ht) in Hc.
  by apply strip_subset in Hc.
Qed.

Lemma main_items_encodable (line : str) :
  encodable line → Forall encodable (main_items line).
Proof.
  intros H. apply Forall_forall. intros item Hi.
  apply Forall_forall. intros c Hc.
  unfold encodable in H. rewrite Forall_forall in H.
  apply H. by eapply main_items_chars.
Qed.

Lemma map_result_ok (items : list str) :
  Forall encodable items →
  map_result (fun item => map_ok Sha256.sha256_hex (encode_utf8 item)) items
  = Ok ((fun item => Sha256.sha256_hex (utf8 item)) <$> items).
Proof.
  induction 1 as [|x l Hx _ IH]; [done|].
  cbn [map_result]. rewrite encode_utf8_ok by done. cbn [map_ok]. by rewrite IH.
Qed.


Lemma main_unfold fuel line :
  main fuel line =
  (print [py "Merkle Tree Visualizer"] ;;;
   print [py "Enter comma" ++ [nb_hyphen]
          ++ py "separated transaction IDs or strings. Each value will be hashed."] ;;;
   prompt (py "Transactions: ") ;;;
   match strip line with
   | [] => print [py "No data provided. Exiting."]
   | _ =>
       hashed <- lift (map_result
                         (fun item => map_ok Sha256.sha256_hex (encode_utf8 item))
                         (main_items line)) ;;
       leaves <- strs_new hashed ;;
       tree <- build_merkle_tree fuel leaves ;;
       print [10 :: py "Merkle Tree (root at top, leaves at bottom):"] ;;;
       print_merkle_tree tree ;;;
       root <- tree_root tree ;;
       print [10 :: py "Merkle Root:"; root]
   end).
Proof. reflexivity. Qed.

Lemma main_banner_run sl ll out (k : M unit) :
  (print [py "Merkle Tree Visualizer"] ;;;
   print [py "Enter comma" ++ [nb_hyphen]
          ++ py "separated transaction IDs or strings. Each value will be hashed."] ;;;
   prompt (py "Transactions: ") ;;; k) (Store sl ll out)
  = k (Store sl ll (out ++ banner)).
Proof.
  do 2 erewrite bind_ok by apply print_run.
  erewrite bind_ok by apply prompt_run.
  f_equal. f_equal. unfold banner, lines_text. cbn [mbind list_bind join].
  by rewrite <- !app_assoc.
Qed.

Lemma main_items_nil_of_blank (line : str) : strip line = [] → main_items line = [].
Proof.
  intros E. unfold main_items. rewrite E. cbn [split]. rewrite filter_cons.
  by rewrite decide_False by (intros H; by apply H).
Qed.

(** X9. A line that UTF-8 can encode and that has at least one token that
    is not blank: [main] returns normally; the leaves are the digests of
    the stripped non-blank tokens in their order; the output is the banner,
    the heading, the tree from the root down, and the root in full. No list
    that existed before is changed. *)
Theorem main_prints_tree fuel line s :
  main_items line ≠ [] → encodable line →
  (length (main_items line) ≤ fuel)%nat →
  ∃ root s',
    main fuel line s = (Ok tt, s')
    ∧ root_of (merkle_layers (main_leaves line)) = Ok root
    ∧ stdout s'
      = stdout s ++ banner
        ++ lines_text
             ([10 :: py "Merkle Tree (root at top, leaves at bottom):"]
              ++ render_from 0 (reverse (merkle_layers (main_leaves line)))
              ++ [(10 :: py "Merkle Root:") ++ py " " ++ root])
    ∧ strlists s `prefix_of` strlists s'
    ∧ listlists s `prefix_of` listlists s'.
Proof.
  intros Hne Henc Hfuel. destruct s as [sl ll out]. cbn [strlists listlists stdout].
  rewrite main_unfold, main_banner_run.
  destruct (strip line) as [|c0 data] eqn:E.
  { by rewrite main_items_nil_of_blank in Hne. }
  rewrite map_result_ok by (by apply main_items_encodable).
  fold (main_leaves line). set (leaves := main_leaves line).
  assert (length leaves = length (main_items line)) as Hlen
    by (unfold leaves, main_leaves; by rewrite length_fmap).
  assert (leaves ≠ []) as Hlne.
  { intros H. rewrite H in Hlen. destruct (main_items line); done. }
  assert (Forall encodable leaves) as Hle.
  { unfold leaves, main_leaves. apply Forall_fmap, Forall_true. intros x.
    apply digest_encodable, sha256_hex_is_digest. }
  erewrite bind_ok by reflexivity.
  erewrite bind_ok by apply strs_new_run.
  destruct (build_run fuel (length sl) (Store (sl ++ [leaves]) ll (out ++ banner)) leaves)
    as (junk & locs & Hrun & Hlocs).
  { by apply list_lookup_middle. }
  { done. }
  { lia. }
  { destruct (main_items line); [done|simpl in Hfuel; lia]. }
  cbn [strlists listlists stdout] in Hrun, Hlocs.
  erewrite bind_ok by exact Hrun.
  erewrite bind_ok by apply print_run.
  assert (∀ o, tree_at (Store ((sl ++ [leaves]) ++ junk) (ll ++ [locs]) o) (length ll)
               = Some (merkle_layers leaves)) as Ht.
  { intros o. apply tree_at_intro with locs; [by apply list_lookup_middle|done]. }
  erewrite bind_ok by apply (print_merkle_tree_run _ _ _ (Ht _)).
  cbn [strlists listlists stdout].
  destruct (layers_last (length leaves) leaves) as [root Hroot]; [done..|].
  assert (root_of (merkle_layers leaves) = Ok root) as Hr.
  { unfold root_of, merkle_layers. by rewrite Hroot. }
  erewrite bind_ok; cycle 1.
  { rewrite (tree_root_run _ _ _ (Ht _)). by rewrite Hr. }
  exists root. eexists. split; [apply print_run|]. split; [done|].
  cbn [strlists listlists stdout]. split; [|split].
  - unfold lines_text. rewrite !bind_app. cbn [mbind list_bind join].
    by rewrite <- !app_assoc.
  - rewrite <- app_assoc. by eexists.
  - by eexists.
Qed.

(** X10. A line that is empty or holds whitespace only: [main] prints the
    banner and "No data provided. Exiting.", returns normally, and creates
    no list. *)
Theorem main_whitespace_line fuel line s :
  Forall (fun c => isspace c = true) line →
  main fuel line s
  = (Ok tt, Store (strlists s) (listlists s)
                  (stdout s ++ banner ++ lines_text [py "No data provided. Exiting."])).
Proof. intros H. apply main_blank_line. by apply strip_nil. Qed.


(** X12. Every item that [main] hashes is non-empty, has no whitespace at
    either end (stripping it again changes nothing), holds no comma, and is
    made of characters of the line; there is at most one item more than the
    line has commas. *)
Theorem main_items_shape (line : list N) :
  Forall (fun item : list N =>
            item ≠ [] ∧ strip item = item ∧ (44 ∉ item)
            ∧ (∀ c, c ∈ item → c ∈ line))
         (main_items line)
  ∧ (length (main_items line)
     ≤ S (length (filter (fun c : N => c = 44%N) line)))%nat.
Proof.
  split.
  - apply Forall_forall. intros item Hi.
    pose proof (main_items_elem _ _ Hi) as (tok & Ht & Hne & ->).
    repeat split; [done|apply strip_idemp| |].
    + intros H. apply strip_subset in H.
      pose proof (split_no_sep 44 (strip line)) as Hns.
      rewrite Forall_forall in Hns. by apply (Hns tok).
    + intros c Hc. by eapply main_items_chars.
  - unfold main_items. rewrite length_fmap.
    etrans; [apply length_filter|]. rewrite split_length.
    apply le_n_S. destruct (strip_spec line) as (p & q & Hs & _).
    rewrite Hs at 2. rewrite !filter_app, !length_app. lia.
Qed.

(** ** [crypto_haiku_signer.py] *)

(** X13. [sign_haiku] returns the SHA-256 digest of the UTF-8 text, 64
    lowercase hexadecimal digits, exactly when the text holds no code
    point UTF-8 cannot encode, and raises [UnicodeEncodeError] otherwise. *)
Theorem sign_haiku_outcome (haiku : str) :
  (Signer.sign_haiku haiku = Ok (Sha256.sha256_hex (utf8 haiku)) ↔ encodable haiku)
  ∧ (Signer.sign_haiku haiku = Raise UnicodeEncodeError
     ↔ Exists (fun c => encodable_char c = false) haiku)
  ∧ is_digest (Sha256.sha256_hex (utf8 haiku)).
Proof.
  rewrite <- not_encodable_iff. unfold Signer.sign_haiku.
  split; [|split; [|apply sha256_hex_is_digest]];
    (destruct (encodable_dec haiku) as [H|H];
     [rewrite encode_utf8_ok by done|rewrite encode_utf8_raises by done];
     cbn [map_ok]; intuition congruence).
Qed.



(** ** [estimate_syllables] and the word bank *)

Lemma in_chars_true chars c : in_chars chars c = true ↔ c ∈ chars.
Proof.
  unfold in_chars. induction chars as [|x l IH]; simpl.
  - split; [done|by intros ?%elem_of_nil].
  - rewrite orb_true_iff, IH, N.eqb_eq, elem_of_cons. done.
Qed.

Lemma punctuation_chars :
  punctuation = [44; 46; 33; 63; 58; 59; 34; 39; 40; 41; 91; 93; 123; 125].
Proof. reflexivity. Qed.

Lemma lower_char_punct c :
  in_chars punctuation (lower_char c) = in_chars punctuation c.
Proof.
  unfold lower_char.
  destruct ((65 <=? c) && (c <=? 90)) eqn:E; [|done].
  apply andb_true_iff in E as [H1%N.leb_le H2%N.leb_le].
  unfold in_chars. rewrite punctuation_chars. cbn [existsb].
  by rewrite !(proj2 (N.eqb_neq _ _)) by lia.
Qed.

Lemma lower_ascii_punct (s : str) :
  Forall (fun c => in_chars punctuation c = true) (lower_ascii s)
  ↔ Forall (fun c => in_chars punctuation c = true) s.
Proof.
  unfold lower_ascii. rewrite Forall_fmap. apply Forall_iff. intros c.
  unfold compose. by rewrite lower_char_punct.
Qed.

Lemma estimate_zero_iff_stripped (word : str) :
  estimate_syllables word = 0%nat
  ↔ strip_by (in_chars punctuation) (lower_ascii word) = [].
Proof.
  unfold estimate_syllables.
  destruct (strip_by _ _) as [|c w]; [done|]. split; [lia|done].
Qed.

(** X15. On ASCII words, [estimate_syllables] returns 0 exactly on the
    words made of the stripped punctuation only, the empty word among
    them. *)
Theorem estimate_syllables_zero_iff (word : str) :
  ascii_text word →
  estimate_syllables word = 0%nat
  ↔ Forall (fun c => in_chars punctuation c = true) word.
Proof.
  intros _.
  by rewrite estimate_zero_iff_stripped, strip_by_nil, lower_ascii_punct.
Qed.

Lemma fold_vowel_bound (w : str) : ∀ cnt prev,
  ((fold_left vowel_step w (cnt, prev)).1
   ≤ cnt + (length w + (if prev : bool then 0 else 1)) / 2)%nat.
Proof.
  induction w as [|ch w IH]; intros cnt prev.
  - simpl. destruct prev; arith.
  - cbn [fold_left vowel_step length].
    etrans; [apply IH|].
    destruct (in_chars VOWELS ch), prev; cbn [andb negb]; arith.
Qed.

Lemma strip_by_length p (s : str) : (length (strip_by p s) ≤ length s)%nat.
Proof.
  destruct (strip_by_spec p s) as (pre & suf & Hs & _).
  rewrite Hs at 2. rewrite !length_app. lia.
Qed.

(** X16. An ASCII word with a character that is not stripped punctuation
    counts at least one syllable and at most half its length, rounded
    up. *)
Theorem estimate_syllables_bounds (word : str) :
  ascii_text word →
  Exists (fun c => in_chars punctuation c = false) word →
  (1 ≤ estimate_syllables word ≤ (length word + 1) / 2)%nat.
Proof.
  intros _ Hex.
  assert (strip_by (in_chars punctuation) (lower_ascii word) ≠ []) as Hne.
  { rewrite strip_by_nil, lower_ascii_punct. intros H.
    apply Exists_exists in Hex as (c & Hc & Hf).
    rewrite Forall_forall in H. apply H in Hc. congruence. }
  pose proof (strip_by_length (in_chars punctuation) (lower_ascii word)) as Hlen.
  unfold lower_ascii in Hlen at 2. rewrite length_fmap in Hlen.
  unfold estimate_syllables.
  destruct (strip_by _ _) as [|c w] eqn:E; [done|].
  pose proof (fold_vowel_bound (c :: w) 0 false) as Hb.
  set (count := (fold_left vowel_step (c :: w) (0%nat, false)).1) in *.
  cbn [length] in *.
  destruct (endswith_e (c :: w) && (1 <? count)%nat); arith.
Qed.

Lemma strip_by_punct_around p (pre w suf : str) :
  Forall (fun c => p c = true) pre → Forall (fun c => p c = true) suf →
  strip_by p (pre ++ w ++ suf) = strip_by p w.
Proof.
  intros Hp Hs.
  destruct (strip_by_spec p w) as (pre' & suf' & Hw & Hp' & Hs' & Hh & Hl).
  apply (strip_by_unique p _ (pre ++ pre') _ (suf' ++ suf)); try done.
  - rewrite Hw at 1. by rewrite <- !app_assoc.
  - by apply Forall_app.
  - by apply Forall_app.
Qed.

(** X17. On ASCII text, stripped punctuation before and after a word does
    not change its estimate. *)
Theorem estimate_syllables_ignores_punctuation (pre word suf : str) :
  ascii_text (pre ++ word ++ suf) →
  Forall (fun c => in_chars punctuation c = true) pre →
  Forall (fun c => in_chars punctuation c = true) suf →
  estimate_syllables (pre ++ word ++ suf) = estimate_syllables word.
Proof.
  intros _ Hp Hs. unfold estimate_syllables, lower_ascii.
  rewrite !fmap_app. fold (lower_ascii pre) (lower_ascii word) (lower_ascii suf).
  by rewrite strip_by_punct_around by (by apply lower_ascii_punct).
Qed.

Lemma fold_vowel_prev (w : str) c : ∀ st,
  (fold_left vowel_step (w ++ [c]) st).2 = in_chars VOWELS c.
Proof.
  intros st. rewrite fold_left_app. cbn [fold_left].
  by destruct (fold_left vowel_step w st).
Qed.

Lemma lstrip_by_keep_last p (s : str) c :
  p c = false → ∃ s', lstrip_by p (s ++ [c]) = s' ++ [c].
Proof.
  intros Hc. induction s as [|d s IH]; simpl.
  - rewrite Hc. by exists [].
  - destruct (p d); [done|]. by exists (d :: s).
Qed.

Lemma strip_by_keep_last p (s : str) c :
  p c = false → ∃ w, strip_by p (s ++ [c]) = w ++ [c].
Proof.
  intros Hc.
  destruct (strip_by_spec p (s ++ [c])) as (pre & suf & Hs & Hp & Hsuf & _).
  destruct suf as [|x suf _] using rev_ind.
  - rewrite app_nil_r in Hs.
    destruct (strip_by p (s ++ [c])) as [|y l _] using rev_ind.
    + rewrite app_nil_r in Hs. rewrite <- Hs in Hp.
      apply Forall_app in Hp as [_ H]. inversion H; subst. congruence.
    + rewrite app_assoc in Hs. apply app_inj_tail in Hs as [_ ->]. by exists l.
  - rewrite !app_assoc in Hs. apply app_inj_tail in Hs as [_ ->].
    apply Forall_app in Hsuf as [_ Hx]. inversion Hx; subst. congruence.
Qed.

Lemma strip_by_snoc p (s : str) c e :
  p c = false → p e = false →
  strip_by p (s ++ [c; e]) = strip_by p (s ++ [c]) ++ [e].
Proof.
  intros Hc He.
  destruct (strip_by_spec p (s ++ [c])) as (pre & suf & Hs & Hp & Hsuf & Hh & Hl).
  destruct suf as [|x suf _] using rev_ind.
  - rewrite app_nil_r in Hs.
    apply (strip_by_unique p _ pre _ []); try done.
    + rewrite app_nil_r. replace (s ++ [c; e]) with ((s ++ [c]) ++ [e])
        by (by rewrite <- app_assoc).
      rewrite Hs at 1. by rewrite <- app_assoc.
    + intros c' r E. destruct (strip_by p (s ++ [c])) as [|c'' r'] eqn:E'.
      * simpl in E. injection E as <- _. done.
      * simpl in E. injection E as <- _. by apply (Hh c'' r').
    + intros c' r E. apply app_inj_tail in E as [_ <-]. done.
  - rewrite !app_assoc in Hs. apply app_inj_tail in Hs as [_ ->].
    apply Forall_app in Hsuf as [_ Hx]. inversion Hx; subst. congruence.
Qed.

Lemma estimate_unfold (word w : str) :
  strip_by (in_chars punctuation) (lower_ascii word) = w → w ≠ [] →
  estimate_syllables word
  = Nat.max (if endswith_e w && (1 <? vowel_groups w)%nat
             then (vowel_groups w - 1)%nat else vowel_groups w) 1.
Proof.
  intros Hw Hne. unfold estimate_syllables. rewrite Hw. by destruct w.
Qed.

(** X18. The silent e, on ASCII text: after a last character that is
    neither a vowel nor stripped punctuation, a final "e" adds no
    syllable. *)
Theorem estimate_syllables_silent_e (word : str) (c : N) :
  ascii_text (word ++ [c]) →
  in_chars VOWELS (lower_char c) = false → in_chars punctuation c = false →
  estimate_syllables (word ++ [c] ++ py "e") = estimate_syllables (word ++ [c]).
Proof.
  intros _ Hv Hp.
  assert (in_chars punctuation (lower_char c) = false) as Hp'
    by (by rewrite lower_char_punct).
  destruct (strip_by_keep_last (in_chars punctuation) (lower_ascii word)
              (lower_char c) Hp') as [w Hw].
  rewrite (estimate_unfold (word ++ [c]) (w ++ [lower_char c]));
    [|by unfold lower_ascii; rewrite fmap_app|by destruct w].
  rewrite (estimate_unfold (word ++ [c] ++ py "e") ((w ++ [lower_char c]) ++ [101]));
    [| |by destruct (w ++ [lower_char c])].
  2:{ unfold lower_ascii. rewrite !fmap_app.
      change (lower_char <$> py "e") with [101].
      change (lower_char <$> [c]) with [lower_char c].
      change ([lower_char c] ++ [101]) with [lower_char c; 101].
      rewrite strip_by_snoc by done. by rewrite <- Hw. }
  unfold vowel_groups. rewrite (fold_left_app _ (w ++ [lower_char c])). cbn [fold_left].
  pose proof (fold_vowel_prev w (lower_char c) (0%nat, false)) as Hprev.
  destruct (fold_left vowel_step (w ++ [lower_char c]) (0%nat, false)) as [cnt prev].
  cbn [snd] in Hprev. subst prev. rewrite Hv.
  unfold endswith_e. rewrite !last_snoc.
  change (in_chars VOWELS 101) with true. cbn [vowel_step andb negb fst].
  change (101 =? 101) with true. cbn [andb].
  assert ((lower_char c =? 101) = false) as ->.
  { apply N.eqb_neq. intros H. rewrite H in Hv. done. }
  cbn [andb]. change (in_chars VOWELS 101) with true. cbn [andb].
  destruct (Nat.ltb_spec 1 (S cnt)); lia.
Qed.

Lemma word_bank_pools :
  mapM (fun cat => WORD_BANK !! cat) [py "adjs"; py "nouns"; py "verbs"]
  = Some [bank_adjs; bank_nouns; bank_verbs].
Proof. vm_compute. reflexivity. Qed.

Lemma short_pool_value (target_syllables total : Z) :
  short_pool target_syllables total
  = Some (filter (fun x => (Z.of_nat (estimate_syllables x) ≤ target_syllables - total)%Z)
                 (bank_adjs ++ bank_nouns ++ bank_verbs)).
Proof.
  unfold short_pool. rewrite word_bank_pools. cbn [mbind option_bind].
  change (concat [bank_adjs; bank_nouns; bank_verbs])
    with (bank_adjs ++ bank_nouns ++ bank_verbs ++ []).
  by rewrite (app_nil_r bank_verbs).
Qed.

(** What the loop of [fit_line] needs of [short_pool]. *)
Lemma short_pool_some (target_syllables total : Z) :
  (total < target_syllables)%Z →
  ∃ x pool,
    short_pool target_syllables total = Some (x :: pool)
    ∧ ∀ w, w ∈ x :: pool →
        w ∈ bank_adjs ++ bank_nouns ++ bank_verbs
        ∧ (Z.of_nat (estimate_syllables w) ≤ target_syllables - total)%Z.
Proof.
  intros Hlt. rewrite short_pool_value.
  destruct (filter _ _) as [|x pool] eqn:E.
  - assert (py "hash" ∈ @nil str) as H; [|by apply elem_of_nil in H].
    rewrite <- E. apply list_elem_of_filter. split.
    + change (estimate_syllables (py "hash")) with 1%nat. lia.
    + rewrite !elem_of_app. right. left.
      unfold bank_nouns. rewrite !elem_of_cons. auto.
  - exists x, pool. split; [done|]. intros w Hw. rewrite <- E in Hw.
    apply list_elem_of_filter in Hw. tauto.
Qed.

(** X19. Whenever [total] is below the target, the list [short_pool] of
    [fit_line] is not empty: it is the adjectives, nouns and verbs whose
    estimate fits, and "hash", of one syllable, is always among them. The
    [break] taken on an empty [short_pool] is therefore never reached from
    the loop, whose test is [total < target_syllables]. *)
Theorem short_pool_never_empty (target_syllables total : Z) :
  (total < target_syllables)%Z →
  ∃ pool,
    short_pool target_syllables total = Some pool
    ∧ py "hash" ∈ pool
    ∧ ∀ x, x ∈ pool
           ↔ x ∈ bank_adjs ++ bank_nouns ++ bank_verbs
             ∧ (Z.of_nat (estimate_syllables x) ≤ target_syllables - total)%Z.
Proof.
  intros Hlt. rewrite short_pool_value. eexists. split; [reflexivity|]. split.
  - apply list_elem_of_filter. split.
    + change (estimate_syllables (py "hash")) with 1%nat. lia.
    + rewrite !elem_of_app. right. left.
      unfold bank_nouns. rewrite !elem_of_cons. auto.
  - intros x. rewrite list_elem_of_filter. tauto.
Qed.

(** ** [crypto_haiku_generator.py] *)

Lemma eff_bind_done {S E A B} (m : Eff.St S E A) (k : A → Eff.St S E B) s a s' :
  m s = (Eff.Done a, s') → Eff.bind m k s = k a s'.
Proof. unfold Eff.bind. by intros ->. Qed.

Lemma notin_check (l : list N) c : forallb (fun x => negb (x =? c)) l = true → c ∉ l.
Proof.
  induction l as [|x l IH]; simpl; [intros _; apply not_elem_of_nil|].
  rewrite andb_true_iff, negb_true_iff, N.eqb_neq. intros [Hx Hl].
  rewrite elem_of_cons. intros [?|?]; [congruence|by apply IH].
Qed.

Lemma split_without sep (a : list N) : sep ∉ a → split sep a = [a].
Proof.
  induction a as [|c a IH]; [done|]. rewrite not_elem_of_cons. intros [Hc Ha].
  simpl. rewrite (proj2 (N.eqb_neq c sep)) by done. by rewrite IH.
Qed.

Lemma split_at_sep sep (a b : list N) :
  sep ∉ a → split sep (a ++ sep :: b) = a :: split sep b.
Proof.
  induction a as [|c a IH]; simpl.
  - intros _. by rewrite N.eqb_refl.
  - rewrite not_elem_of_cons. intros [Hc Ha].
    rewrite (proj2 (N.eqb_neq c sep)) by done. by rewrite IH.
Qed.

Lemma generator_lines_no_newline :
  Forall (fun l => 10 ∉ l)
    (Generator.LINE1_OPTIONS ++ Generator.LINE2_OPTIONS ++ Generator.LINE3_OPTIONS).
Proof. repeat constructor; by apply notin_check. Qed.

Section GeneratorRun.
Variable randbelow : nat → nat.
Hypothesis randbelow_lt : ∀ k, (randbelow k < 5)%nat.

Lemma generator_choice_run (xs : list str) d i o :
  length xs = 5%nat →
  ∃ x, xs !! randbelow d = Some x
       ∧ Generator.choice randbelow xs (Generator.World d i o)
         = (Eff.Done x, Generator.World (S d) i o).
Proof.
  intros Hlen.
  destruct (lookup_lt_is_Some_2 xs (randbelow d)) as [x Hx].
  { rewrite Hlen. apply randbelow_lt. }
  exists x. split; [done|]. unfold Generator.choice.
  destruct xs; [done|]. cbn [Generator.drawn Generator.stdin Generator.stdout].
  by rewrite Hx.
Qed.

Lemma generate_haiku_run d i o :
  Generator.generate_haiku randbelow (Generator.World d i o)
  = (Eff.Done (haiku_of randbelow d), Generator.World (3 + d) i o).
Proof.
  unfold Generator.generate_haiku, haiku_of.
  destruct (generator_choice_run Generator.LINE1_OPTIONS d i o eq_refl) as (l1 & E1 & H1).
  destruct (generator_choice_run Generator.LINE2_OPTIONS (S d) i o eq_refl)
    as (l2 & E2 & H2).
  destruct (generator_choice_run Generator.LINE3_OPTIONS (S (S d)) i o eq_refl)
    as (l3 & E3 & H3).
  erewrite eff_bind_done by exact H1.
  erewrite eff_bind_done by exact H2.
  erewrite eff_bind_done by exact H3.
  unfold str in *. by rewrite E1, E2, E3.
Qed.

Lemma haiku_of_lines d :
  ∃ l1 l2 l3,
    l1 ∈ Generator.LINE1_OPTIONS ∧ l2 ∈ Generator.LINE2_OPTIONS
    ∧ l3 ∈ Generator.LINE3_OPTIONS
    ∧ haiku_of randbelow d = l1 ++ [10] ++ l2 ++ [10] ++ l3
    ∧ split 10 (haiku_of randbelow d) = [l1; l2; l3].
Proof.
  unfold haiku_of.
  destruct (lookup_lt_is_Some_2 Generator.LINE1_OPTIONS (randbelow d)) as [l1 H1];
    [apply randbelow_lt|].
  destruct (lookup_lt_is_Some_2 Generator.LINE2_OPTIONS (randbelow (S d))) as [l2 H2];
    [apply randbelow_lt|].
  destruct (lookup_lt_is_Some_2 Generator.LINE3_OPTIONS (randbelow (S (S d))))
    as [l3 H3]; [apply randbelow_lt|].
  unfold str in *. rewrite H1, H2, H3. cbn [default]. exists l1, l2, l3.
  apply list_elem_of_lookup_2 in H1, H2, H3.
  pose proof generator_lines_no_newline as Hn. rewrite Forall_forall in Hn.
  repeat split; try done.
  cbn [app]. rewrite split_at_sep by (apply Hn; rewrite !elem_of_app; auto).
  rewrite split_at_sep by (apply Hn; rewrite !elem_of_app; auto).
  rewrite split_without by (apply Hn; rewrite !elem_of_app; auto). done.
Qed.

End GeneratorRun.

Lemma lower_yes (s : str) :
  Syllables.lower_ascii s = py "y" ↔ s = py "y" ∨ s = py "Y".
Proof.
  change (py "y") with [121]. change (py "Y") with [89].
  unfold Syllables.lower_ascii. destruct s as [|c [|c' s]]; cbn [fmap list_fmap].
  - split; [done|by intros [|]].
  - split.
    + intros [= H]. unfold Syllables.lower_char in H.
      destruct ((65 <=? c) && (c <=? 90)); [right|left]; f_equal; lia.
    + by intros [[= ->]|[= ->]].
  - split; [done|by intros [|]].
Qed.

Section GeneratorMain.
Variable randbelow : nat → nat.
Hypothesis randbelow_lt : ∀ k, (randbelow k < 5)%nat.

(** One pass of the loop. *)
Lemma main_loop_step fuel d (answer : str) (rest : list str) out :
  Generator.main_loop randbelow (S fuel) (Generator.World d (answer :: rest) out)
  = (if decide (Syllables.lower_ascii (strip answer) ≠ py "y")
     then Generator.print (py "Goodbye! Keep your keys safe.")
     else Generator.main_loop randbelow fuel)
      (Generator.World (3 + d) rest (out ++ round_text randbelow d)).
Proof.
  cbn [Generator.main_loop].
  erewrite eff_bind_done by (by apply generate_haiku_run).
  erewrite eff_bind_done by reflexivity.
  erewrite eff_bind_done by reflexivity.
  erewrite eff_bind_done by reflexivity.
  cbn [Generator.drawn Generator.stdin Generator.stdout].
  unfold round_text. by rewrite <- !app_assoc.
Qed.

Lemma main_loop_step_eof fuel d out :
  Generator.main_loop randbelow (S fuel) (Generator.World d [] out)
  = (Eff.Fail Generator.EOFError,
     Generator.World (3 + d) [] (out ++ round_text randbelow d)).
Proof.
  cbn [Generator.main_loop].
  erewrite eff_bind_done by (by apply generate_haiku_run).
  erewrite eff_bind_done by reflexivity.
  erewrite eff_bind_done by reflexivity.
  unfold Eff.bind, Generator.input.
  cbn [Generator.drawn Generator.stdin Generator.stdout].
  unfold round_text. by rewrite <- !app_assoc.
Qed.

Lemma main_loop_stops (ys : list str) : ∀ fuel d out (a : str) (rest : list str),
  Forall says_yes ys → ¬ says_yes a → (length ys < fuel)%nat →
  Generator.main_loop randbelow fuel (Generator.World d (ys ++ a :: rest) out)
  = (Eff.Done tt,
     Generator.World (3 * S (length ys) + d) rest
       (out ++ rounds_text randbelow d (S (length ys))
        ++ py "Goodbye! Keep your keys safe." ++ [10])).
Proof.
  induction ys as [|y ys IH]; intros fuel d out a rest Hys Ha Hfuel;
    (destruct fuel as [|fuel]; [simpl in Hfuel; lia|]); cbn [app].
  - rewrite main_loop_step.
    destruct (decide (Syllables.lower_ascii (strip a) ≠ py "y")) as [_|Hn].
    + unfold Generator.print. cbn [Generator.drawn Generator.stdin Generator.stdout].
      cbn [rounds_text length]. rewrite app_nil_r, <- !app_assoc.
      by replace (3 * 1 + d)%nat with (3 + d)%nat by lia.
    + exfalso. apply Ha. apply lower_yes. by destruct (decide (Syllables.lower_ascii (strip a) = py "y")).
  - inversion Hys as [|? ? Hy Hys']; subst.
    rewrite main_loop_step.
    destruct (decide (Syllables.lower_ascii (strip y) ≠ py "y")) as [Hn|_].
    + exfalso. apply Hn. by apply lower_yes.
    + rewrite IH by (done || simpl in Hfuel; lia).
      cbn [length rounds_text]. rewrite <- !app_assoc.
      by replace (3 * S (length ys) + (3 + d))%nat
        with (3 * S (S (length ys)) + d)%nat by lia.
Qed.

Lemma main_loop_eof (ys : list str) : ∀ fuel d out,
  Forall says_yes ys → (length ys < fuel)%nat →
  Generator.main_loop randbelow fuel (Generator.World d ys out)
  = (Eff.Fail Generator.EOFError,
     Generator.World (3 * S (length ys) + d) []
       (out ++ rounds_text randbelow d (S (length ys)))).
Proof.
  induction ys as [|y ys IH]; intros fuel d out Hys Hfuel;
    (destruct fuel as [|fuel]; [simpl in Hfuel; lia|]).
  - rewrite main_loop_step_eof. cbn [rounds_text length].
    rewrite app_nil_r. by replace (3 * 1 + d)%nat with (3 + d)%nat by lia.
  - inversion Hys as [|? ? Hy Hys']; subst.
    rewrite main_loop_step.
    destruct (decide (Syllables.lower_ascii (strip y) ≠ py "y")) as [Hn|_].
    + exfalso. apply Hn. by apply lower_yes.
    + rewrite IH by (done || simpl in Hfuel; lia).
      cbn [length rounds_text]. rewrite <- !app_assoc.
      by replace (3 * S (length ys) + (3 + d))%nat
        with (3 * S (S (length ys)) + d)%nat by lia.
Qed.

End GeneratorMain.

(** ** The sampler and [fit_line] *)

Lemma bank_words_estimates :
  Forall (fun w => (1 ≤ estimate_syllables w ≤ 4)%nat) bank_words.
Proof.
  apply Forall_forall. intros w Hw.
  assert (forallb (fun w => (1 <=? estimate_syllables w)%nat
                            && (estimate_syllables w <=? 4)%nat) bank_words = true) as H
    by (vm_compute; reflexivity).
  rewrite forallb_forall in H. apply list_elem_of_In, H in Hw.
  apply andb_true_iff in Hw as [H1%Nat.leb_le H2%Nat.leb_le]. lia.
Qed.

Lemma word_bank_lookup (name : str) :
  name ∈ [py "adjs"; py "nouns"; py "verbs"; py "extras"] →
  ∃ pool, WORD_BANK !! name = Some pool ∧ pool ≠ [] ∧ pool ⊆ bank_words.
Proof.
  rewrite !elem_of_cons, elem_of_nil. unfold bank_words.
  intros [->|[->|[->|[->|[]]]]].
  - exists bank_adjs. split; [by vm_compute|]. split; [done|]. intros x Hx. rewrite !elem_of_app. tauto.
  - exists bank_nouns. split; [by vm_compute|]. split; [done|]. intros x Hx. rewrite !elem_of_app. tauto.
  - exists bank_verbs. split; [by vm_compute|]. split; [done|]. intros x Hx. rewrite !elem_of_app. tauto.
  - exists bank_extras. split; [by vm_compute|]. split; [done|]. intros x Hx. rewrite !elem_of_app. tauto.
Qed.

Section SamplerRun.
Variable hit : nat → nat → bool.
Variable low : nat → bool.

Lemma first_hit_elem k (items : list str) : ∀ i w,
  Sampler.first_hit hit k i items = Some w → w ∈ items.
Proof.
  induction items as [|x items IH]; intros i w; [done|]. simpl.
  destruct (hit k i).
  - intros [= ->]. by left.
  - intros H. right. by eapply IH.
Qed.

Lemma sampler_choice_run (items : list str) k :
  items ≠ [] →
  ∃ w, w ∈ items ∧ Sampler.choice hit items k = (Eff.Done w, S k).
Proof.
  intros Hne. unfold Sampler.choice.
  destruct (Sampler.first_hit hit k 0 items) as [w|] eqn:E.
  - exists w. split; [by eapply first_hit_elem|done].
  - destruct (last items) as [w|] eqn:El.
    + exists w. split; [|done]. apply last_Some in El as [l ->].
      rewrite elem_of_app, list_elem_of_singleton. by right.
    + by apply last_None in El.
Qed.

End SamplerRun.

Lemma syllables_of_snoc (words : list str) w :
  syllables_of (words ++ [w]) = (syllables_of words + estimate_syllables w)%nat.
Proof. unfold syllables_of. rewrite fmap_app, sum_list_with_app. simpl. lia. Qed.

Lemma syllables_of_cons w (words : list str) :
  syllables_of (w :: words) = (estimate_syllables w + syllables_of words)%nat.
Proof. reflexivity. Qed.

Lemma syllables_of_bank (words : list str) :
  Forall (fun w => w ∈ bank_words) words →
  (length words ≤ syllables_of words ≤ 4 * length words)%nat.
Proof.
  pose proof bank_words_estimates as Hb. rewrite Forall_forall in Hb.
  induction 1 as [|w words Hw _ IH]; [by compute|].
  rewrite syllables_of_cons, length_cons.
  specialize (Hb w Hw). lia.
Qed.

Section SamplerLines.
Variable hit : nat → nat → bool.

(** The loop of one attempt never stops short of the target, as long as
    the target is at most seven. *)
Lemma gather_run fuel : ∀ target (words : list str) total k,
  (total ≤ target)%Z → (target ≤ 7)%Z →
  Z.of_nat (syllables_of words) = total →
  Forall (fun w => w ∈ bank_words) words →
  (7 - length words < fuel)%nat →
  ∃ words' k',
    Sampler.gather hit fuel target words total k = (Eff.Done (words', target), k')
    ∧ Z.of_nat (syllables_of words') = target
    ∧ Forall (fun w => w ∈ bank_words) words'
    ∧ (length words' ≤ 7)%nat.
Proof.
  induction fuel as [|fuel IH]; intros target words total k Hle H7 Hsum Hbank Hfuel;
    [lia|].
  pose proof (syllables_of_bank words Hbank) as Hlen.
  cbn [Sampler.gather].
  destruct (Z.ltb_spec total target) as [Hlt|Hge];
    [destruct (Nat.ltb_spec (length words) 7) as [Hl7|Hl7]|]; cbn [andb].
  - destruct (sampler_choice_run hit [py "adjs"; py "nouns"; py "verbs"; py "extras"] k)
      as (name & Hname & Hc1); [done|].
    destruct (word_bank_lookup name Hname) as (pool & Hpool & Hne & Hsub).
    destruct (sampler_choice_run hit pool (S k) Hne) as (w & Hw & Hc2).
    erewrite eff_bind_done by exact Hc1.
    unfold Sampler.bank at 1. rewrite Hpool.
    erewrite eff_bind_done by reflexivity.
    erewrite eff_bind_done by exact Hc2.
    assert (w ∈ bank_words) as Hwb by (by apply Hsub).
    pose proof bank_words_estimates as Hb. rewrite Forall_forall in Hb.
    pose proof (Hb w Hwb) as Hest.
    destruct (Z.leb_spec (total + Z.of_nat (estimate_syllables w)) target) as [Hfit|Hover].
    + apply IH; try done.
      * rewrite syllables_of_snoc. lia.
      * apply Forall_app. split; [done|by constructor].
      * rewrite length_app. simpl. lia.
    + destruct (short_pool_some target total Hlt) as (x & short & Hs & Hshort).
      rewrite Hs.
      destruct (sampler_choice_run hit (x :: short) (S (S k))) as (w2 & Hw2 & Hc3);
        [done|].
      erewrite eff_bind_done by exact Hc3.
      apply Hshort in Hw2 as [Hw2 Hfit2].
      assert (w2 ∈ bank_words) as Hw2b.
      { unfold bank_words. rewrite !elem_of_app in *. tauto. }
      pose proof (Hb w2 Hw2b) as Hest2.
      apply IH; try done.
      * lia.
      * rewrite syllables_of_snoc. lia.
      * apply Forall_app. split; [done|by constructor].
      * rewrite length_app. simpl. lia.
  - assert (total = target) as -> by lia.
    exists words, k. repeat split; try done. lia.
  - assert (total = target) as -> by lia.
    exists words, k. repeat split; try done.
    destruct (decide (length words ≤ 7)%nat); [done|].
    exfalso. lia.
Qed.
End SamplerLines.

Section SamplerFit.
Variable hit : nat → nat → bool.
Variable low : nat → bool.

Lemma attempt_run fuel target k :
  (1 ≤ target ≤ 7)%Z → (8 ≤ fuel)%nat →
  ∃ (words : list str) k',
    Sampler.attempt hit low fuel target k
    = (Eff.Done (Some (if low k' then capitalized (join (py " ") words)
                       else join (py " ") words)), S k')
    ∧ Z.of_nat (syllables_of words) = target
    ∧ Forall (fun w => w ∈ bank_words) words
    ∧ (1 ≤ length words ≤ 7)%nat.
Proof.
  intros Ht Hfuel.
  destruct (gather_run hit fuel target [] 0%Z k) as (words & k' & Hrun & Hsum & Hbank & Hlen);
    [lia|lia|done|done|simpl; lia|].
  exists words, k'. unfold Sampler.attempt.
  erewrite eff_bind_done by exact Hrun.
  cbv beta iota. rewrite Z.eqb_refl. cbn [andb].
  assert (words ≠ []) as Hne by (intros ->; compute in Hsum; lia).
  rewrite bool_decide_eq_false_2 by done. cbn [negb].
  split; [done|]. split; [done|]. split; [done|].
  destruct words; [done|]. simpl in *. lia.
Qed.

Lemma fit_line_run fuel target k :
  (1 ≤ target ≤ 7)%Z → (8 ≤ fuel)%nat →
  ∃ (words : list str) k',
    Sampler.fit_line hit low fuel target k
    = (Eff.Done (if low k' then capitalized (join (py " ") words)
                 else join (py " ") words), S k')
    ∧ Z.of_nat (syllables_of words) = target
    ∧ Forall (fun w => w ∈ bank_words) words
    ∧ (1 ≤ length words ≤ 7)%nat.
Proof.
  intros Ht Hfuel.
  destruct (attempt_run fuel target k Ht Hfuel) as (words & k' & Hrun & H).
  exists words, k'. split; [|done].
  unfold Sampler.fit_line.
  set (line := if low k' then _ else _) in *.
  assert (Sampler.attempts hit low 512 fuel target k = (Eff.Done (Some line), S k'))
    as Hall.
  { change 512%nat with (S 511). cbn [Sampler.attempts].
    erewrite eff_bind_done by exact Hrun. reflexivity. }
  erewrite eff_bind_done by exact Hall. reflexivity.
Qed.

End SamplerFit.

(** X20. [EntropySampler.choice] raises [IndexError] on an empty list and
    returns a member of any other list; either way it takes one value from
    the generator. *)
Theorem sampler_choice_outcome (hit : nat → nat → bool) (items : list str) (k : nat) :
  (items = [] ∧ Sampler.choice hit items k = (Eff.Fail Sampler.IndexError, S k))
  ∨ (∃ w, w ∈ items ∧ Sampler.choice hit items k = (Eff.Done w, S k)).
Proof.
  destruct items as [|x items]; [by left|right].
  by apply sampler_choice_run.
Qed.

(** X21. For a target of one to seven syllables, whatever the generator
    yields, the first of the 512 passes of [fit_line] returns: the line is
    one to seven words of the bank joined by spaces, first letter in upper
    case or not, and the estimates of its words add up to the target
    exactly. Neither the [break] nor the fallback after the loop is
    reached. *)
Theorem fit_line_first_pass (hit : nat → nat → bool) (low : nat → bool)
    (fuel : nat) (target : Z) (k : nat) :
  (1 ≤ target ≤ 7)%Z → (8 ≤ fuel)%nat →
  ∃ line k',
    Sampler.attempt hit low fuel target k = (Eff.Done (Some line), k')
    ∧ Sampler.fit_line hit low fuel target k = (Eff.Done line, k')
    ∧ fits target line.
Proof.
  intros Ht Hfuel.
  destruct (attempt_run hit low fuel target k Ht Hfuel)
    as (words & k' & Hrun & Hsum & Hbank & Hlen).
  destruct (fit_line_run hit low fuel target k Ht Hfuel)
    as (words2 & k2 & Hrun2 & _).
  eexists _, _. split; [exact Hrun|]. split.
  - unfold Sampler.fit_line. change 512%nat with (S 511). cbn [Sampler.attempts].
    unfold Eff.bind at 1. unfold Eff.bind at 1. by rewrite Hrun.
  - exists words. split; [|done]. unfold line_of. destruct (low k'); auto.
Qed.


(** X23. [generate_haiku] of the simple generator returns one line of each
    list of options, separated by newlines, after three draws; splitting the
    haiku at the newlines gives the three lines back. *)
Theorem generator_haiku_lines (randbelow : nat → nat) d i o :
  (∀ k, (randbelow k < 5)%nat) →
  ∃ l1 l2 l3,
    l1 ∈ Generator.LINE1_OPTIONS ∧ l2 ∈ Generator.LINE2_OPTIONS
    ∧ l3 ∈ Generator.LINE3_OPTIONS
    ∧ Generator.generate_haiku randbelow (Generator.World d i o)
      = (Eff.Done (l1 ++ [10] ++ l2 ++ [10] ++ l3), Generator.World (3 + d) i o)
    ∧ split 10 (l1 ++ [10] ++ l2 ++ [10] ++ l3) = [l1; l2; l3].
Proof.
  intros Hr.
  destruct (haiku_of_lines randbelow Hr d) as (l1 & l2 & l3 & H1 & H2 & H3 & E & Hs).
  exists l1, l2, l3. rewrite generate_haiku_run by done. rewrite <- E. done.
Qed.

(** X24. [main] of the simple generator goes on while the answer, once
    stripped, is "y" or "Y", and stops at the first other answer, the empty
    one included: after [n] such answers and one other it has printed the
    title, [n + 1] haikus and the farewell, and has read no further line. *)
Theorem generator_main_stops (randbelow : nat → nat) fuel d out
    (ys : list str) (a : str) (rest : list str) :
  (∀ k, (randbelow k < 5)%nat) →
  Forall says_yes ys → ¬ says_yes a → (length ys < fuel)%nat →
  Generator.main randbelow fuel (Generator.World d (ys ++ a :: rest) out)
  = (Eff.Done tt,
     Generator.World (3 * S (length ys) + d) rest
       (out ++ py "Crypto Haiku Generator" ++ [10]
        ++ py "----------------------" ++ [10]
        ++ rounds_text randbelow d (S (length ys))
        ++ py "Goodbye! Keep your keys safe." ++ [10])).
Proof.
  intros Hr Hys Ha Hfuel. unfold Generator.main.
  erewrite eff_bind_done by reflexivity.
  erewrite eff_bind_done by reflexivity.
  cbn [Generator.drawn Generator.stdin Generator.stdout].
  rewrite main_loop_stops by done. by rewrite <- !app_assoc.
Qed.

(** X25. When every answer is "y" or "Y" and the input ends, [main] ends in
    [EOFError], raised by [input] after one haiku more than there were
    answers. *)
Theorem generator_main_eof (randbelow : nat → nat) fuel d out (ys : list str) :
  (∀ k, (randbelow k < 5)%nat) →
  Forall says_yes ys → (length ys < fuel)%nat →
  Generator.main randbelow fuel (Generator.World d ys out)
  = (Eff.Fail Generator.EOFError,
     Generator.World (3 * S (length ys) + d) []
       (out ++ py "Crypto Haiku Generator" ++ [10]
        ++ py "----------------------" ++ [10]
        ++ rounds_text randbelow d (S (length ys)))).
Proof.
  intros Hr Hys Hfuel. unfold Generator.main.
  erewrite eff_bind_done by reflexivity.
  erewrite eff_bind_done by reflexivity.
  cbn [Generator.drawn Generator.stdin Generator.stdout].
  rewrite main_loop_eof by done. by rewrite <- !app_assoc.
Qed.






(** ** Instances of the theorems above *)

Lemma build_layer_count_and_sizes_witness :
  ∃ t s' layers,
    build_merkle_tree 3 0 (leaves_store tx_leaves) = (Ok t, s')
    ∧ tree_at s' t = Some layers
    ∧ length layers = S (Nat.log2_up (length tx_leaves))
    ∧ ∀ i li, layers !! i = Some li →
        length li = ((length tx_leaves + 2 ^ i - 1) / 2 ^ i)%nat.
Proof.
  apply (build_layer_count_and_sizes 3 0 (leaves_store tx_leaves) tx_leaves);
    [reflexivity | by apply encodable_check | vm_compute; lia].
Defined.

Lemma build_loop_passes_witness :
  ∃ s',
    build_merkle_tree 2 0 (leaves_store tx_leaves)
    = (if (Nat.log2_up (length tx_leaves) <? 2)%nat
       then Ok (length (listlists (leaves_store tx_leaves))) else OutOfFuel, s').
Proof.
  apply (build_loop_passes 2 0 (leaves_store tx_leaves) tx_leaves);
    [reflexivity | by apply encodable_check].
Defined.

Lemma build_upper_layers_are_digests_witness :
  ∃ t s' layers,
    build_merkle_tree 3 0 (leaves_store [py "a"; py "b"; py "c"]) = (Ok t, s')
    ∧ tree_at s' t = Some layers
    ∧ ∀ i li, layers !! S i = Some li → Forall is_digest li.
Proof.
  apply (build_upper_layers_are_digests 3 0 (leaves_store [py "a"; py "b"; py "c"])
           [py "a"; py "b"; py "c"]);
    [reflexivity | by apply encodable_check | vm_compute; lia].
Defined.

Lemma build_raises_on_unencodable_leaf_witness :
  ∃ s',
    build_merkle_tree 1 0 (leaves_store [py "a"; [0xD800]])
    = (Raise UnicodeEncodeError, s')
    ∧ strlists s' !! 0%nat = Some [py "a"; [0xD800]]
    ∧ stdout s' = stdout (leaves_store [py "a"; [0xD800]]).
Proof.
  apply (build_raises_on_unencodable_leaf 1 0 (leaves_store [py "a"; [0xD800]])
           [py "a"; [0xD800]]);
    [reflexivity | simpl; lia | | lia].
  apply Exists_cons_tl, Exists_cons_hd. intros H%Forall_inv. discriminate H.
Defined.

Lemma build_duplicate_last_same_root_witness :
  ∃ t1 s1 t2 s2 layers1 layers2,
    build_merkle_tree 3 0 (Store [tx_leaves; tx_leaves ++ [tx3]] [] []) = (Ok t1, s1)
    ∧ build_merkle_tree 3 1 (Store [tx_leaves; tx_leaves ++ [tx3]] [] []) = (Ok t2, s2)
    ∧ tree_at s1 t1 = Some layers1
    ∧ tree_at s2 t2 = Some layers2
    ∧ tail layers1 = tail layers2
    ∧ tree_root t1 s1 = (root_of layers1, s1)
    ∧ tree_root t2 s2 = (root_of layers2, s2)
    ∧ root_of layers1 = root_of layers2.
Proof.
  apply (build_duplicate_last_same_root 3 0 1
           (Store [tx_leaves; tx_leaves ++ [tx3]] [] []) tx_leaves tx3);
    [reflexivity | reflexivity | reflexivity | reflexivity | simpl; lia
    | by apply encodable_check | vm_compute; lia].
Defined.

Lemma build_tree_not_aliased_witness :
  ∃ t s' s'',
    build_merkle_tree 3 0 (leaves_store tx_leaves) = (Ok t, s')
    ∧ strs_append 0 tx4 s' = (Ok tt, s'')
    ∧ strlists s'' !! 0%nat = Some (tx_leaves ++ [tx4])
    ∧ tree_at s'' t = Some (merkle_layers tx_leaves).
Proof.
  apply (build_tree_not_aliased 3 0 (leaves_store tx_leaves) tx_leaves tx4);
    [reflexivity | by apply encodable_check | vm_compute; lia].
Defined.

Lemma build_changes_no_object_witness :
  (∀ r (xs : list str),
     strlists (leaves_store [py "a"; [0xD800]]) !! r = Some xs →
     strlists (build_merkle_tree 1 0 (leaves_store [py "a"; [0xD800]])).2 !! r = Some xs)
  ∧ (∀ t (ls : list nat),
       listlists (leaves_store [py "a"; [0xD800]]) !! t = Some ls →
       listlists (build_merkle_tree 1 0 (leaves_store [py "a"; [0xD800]])).2 !! t
       = Some ls)
  ∧ stdout (build_merkle_tree 1 0 (leaves_store [py "a"; [0xD800]])).2
    = stdout (leaves_store [py "a"; [0xD800]]).
Proof.
  apply (build_changes_no_object 1 0 (leaves_store [py "a"; [0xD800]])
           (build_merkle_tree 1 0 (leaves_store [py "a"; [0xD800]])).1).
  by destruct (build_merkle_tree 1 0 (leaves_store [py "a"; [0xD800]])).
Defined.

Lemma main_prints_tree_witness :
  ∃ root s',
    main 2 (py " tx1, ,tx2 ") empty_store = (Ok tt, s')
    ∧ root_of (merkle_layers (main_leaves (py " tx1, ,tx2 "))) = Ok root
    ∧ stdout s'
      = stdout empty_store ++ banner
        ++ lines_text
             ([10 :: py "Merkle Tree (root at top, leaves at bottom):"]
              ++ render_from 0 (reverse (merkle_layers (main_leaves (py " tx1, ,tx2 "))))
              ++ [(10 :: py "Merkle Root:") ++ py " " ++ root])
    ∧ strlists empty_store `prefix_of` strlists s'
    ∧ listlists empty_store `prefix_of` listlists s'.
Proof.
  apply (main_prints_tree 2 (py " tx1, ,tx2 ") empty_store);
    [by vm_compute | by apply encodable_check1 | vm_compute; lia].
Defined.

Lemma main_whitespace_line_witness :
  main 0 (py "   ") empty_store
  = (Ok tt, Store (strlists empty_store) (listlists empty_store)
              (stdout empty_store ++ banner
               ++ lines_text [py "No data provided. Exiting."])).
Proof.
  apply (main_whitespace_line 0 (py "   ") empty_store).
  repeat constructor.
Defined.



Lemma estimate_syllables_zero_iff_witness :
  estimate_syllables (py "(?!)") = 0%nat
  ↔ Forall (fun c => in_chars punctuation c = true) (py "(?!)").
Proof.
  apply (estimate_syllables_zero_iff (py "(?!)")).
  repeat constructor.
Defined.

Lemma estimate_syllables_bounds_witness :
  (1 ≤ estimate_syllables (py "Entropy,") ≤ (length (py "Entropy,") + 1) / 2)%nat.
Proof.
  apply (estimate_syllables_bounds (py "Entropy,")).
  - repeat constructor.
  - apply Exists_cons_hd. reflexivity.
Defined.

Lemma estimate_syllables_ignores_punctuation_witness :
  estimate_syllables (py "(" ++ py "cipher" ++ py ")!") = estimate_syllables (py "cipher").
Proof.
  apply (estimate_syllables_ignores_punctuation (py "(") (py "cipher") (py ")!"));
    repeat constructor.
Defined.

Lemma estimate_syllables_silent_e_witness :
  estimate_syllables (py "cur" ++ [118] ++ py "e") = estimate_syllables (py "cur" ++ [118]).
Proof.
  apply (estimate_syllables_silent_e (py "cur") 118);
    [repeat constructor | reflexivity | reflexivity].
Defined.

Lemma short_pool_never_empty_witness :
  ∃ pool,
    short_pool 5 4 = Some pool
    ∧ py "hash" ∈ pool
    ∧ ∀ x, x ∈ pool
           ↔ x ∈ bank_adjs ++ bank_nouns ++ bank_verbs
             ∧ (Z.of_nat (estimate_syllables x) ≤ 5 - 4)%Z.
Proof. apply (short_pool_never_empty 5 4). lia. Defined.

Lemma fit_line_first_pass_witness :
  ∃ line k',
    Sampler.attempt (fun _ i => Nat.eqb i 2) (fun _ => true) 8 7 0%nat
    = (Eff.Done (Some line), k')
    ∧ Sampler.fit_line (fun _ i => Nat.eqb i 2) (fun _ => true) 8 7 0%nat
      = (Eff.Done line, k')
    ∧ fits 7 line.
Proof.
  apply (fit_line_first_pass (fun _ i => Nat.eqb i 2) (fun _ => true) 8 7 0%nat); lia.
Defined.



Lemma generator_haiku_lines_witness :
  ∃ l1 l2 l3,
    l1 ∈ Generator.LINE1_OPTIONS ∧ l2 ∈ Generator.LINE2_OPTIONS
    ∧ l3 ∈ Generator.LINE3_OPTIONS
    ∧ Generator.generate_haiku (fun k => k mod 5)%nat (Generator.World 4 [] [])
      = (Eff.Done (l1 ++ [10] ++ l2 ++ [10] ++ l3), Generator.World (3 + 4) [] [])
    ∧ split 10 (l1 ++ [10] ++ l2 ++ [10] ++ l3) = [l1; l2; l3].
Proof.
  apply (generator_haiku_lines (fun k => k mod 5)%nat 4 [] []).
  intros k. apply Nat.mod_upper_bound. lia.
Defined.

Lemma generator_main_stops_witness :
  Generator.main (fun k => k mod 5)%nat 3
    (Generator.World 0 ([py " y"; py "Y "] ++ [] :: [py "y"]) [])
  = (Eff.Done tt,
     Generator.World (3 * S (length [py " y"; py "Y "]) + 0) [py "y"]
       ([] ++ py "Crypto Haiku Generator" ++ [10]
        ++ py "----------------------" ++ [10]
        ++ rounds_text (fun k => k mod 5)%nat 0 (S (length [py " y"; py "Y "]))
        ++ py "Goodbye! Keep your keys safe." ++ [10])).
Proof.
  apply (generator_main_stops (fun k => k mod 5)%nat 3 0 [] [py " y"; py "Y "] []
           [py "y"]).
  - intros k. apply Nat.mod_upper_bound. lia.
  - apply Forall_cons_2; [left; reflexivity|].
    apply Forall_cons_2; [right; reflexivity|]. apply Forall_nil_2.
  - intros [H|H]; discriminate H.
  - simpl. lia.
Defined.

Lemma generator_main_eof_witness :
  Generator.main (fun _ => 4%nat) 2 (Generator.World 0 [py "y"] [])
  = (Eff.Fail Generator.EOFError,
     Generator.World (3 * S (length [py "y"]) + 0) []
       ([] ++ py "Crypto Haiku Generator" ++ [10]
        ++ py "----------------------" ++ [10]
        ++ rounds_text (fun _ => 4%nat) 0 (S (length [py "y"])))).
Proof.
  apply (generator_main_eof (fun _ => 4%nat) 2 0 [] [py "y"]).
  - intros k. lia.
  - apply Forall_cons_2; [left; reflexivity|]. apply Forall_nil_2.
  - simpl. lia.
Defined.
